(** * UV_printer: image-to-path optimizer and experiment controller

    A shallow embedding of the Python sources

      - [utils/config.py], [utils/helpers.py]
      - [utils/uv_controller.py]     (class [UVcontroller])
      - [utils/motion_system.py]     (class [MotionSystem])
      - [utils/experiment_runner.py] (class [ExperimentRunner])
      - [utils/path_generator.py]    (class [ImageTSPOptimizer])
      - [gui.py]                     (class [ExperimentWorker], stepping loop)

    Objects are records, methods are functions from the object (and the
    outcome of the device calls the method performs) to the updated object
    and the method's result.  A Python exception is a value of [exn]; a
    method that may let one escape returns a [result]. *)

From Stdlib Require Import List ZArith QArith Qround Bool Lia Lqa Permutation.
From Stdlib Require Import Strings.Byte Strings.Ascii Floats.
Import ListNotations.

(** ** Exceptions and results *)

(** The exception classes the sources raise or catch.  [KeyboardInterrupt]
    derives from [BaseException] only, so [except Exception] lets it pass. *)
Inductive exn : Type :=
| SerialException
| SerialTimeoutException
| RuntimeError
| ValueError
| FileNotFoundError
| IOError
| InterruptedError
| DeviceError            (* any other subclass of Exception *)
| KeyboardInterrupt.

Definition is_Exception (e : exn) : bool :=
  match e with
  | KeyboardInterrupt => false
  | _ => true
  end.

(** What a device or system call does: it completes or it raises. *)
Inductive outcome : Type :=
| Done
| Throws (e : exn).

(** What a method call does: it returns a value or lets an exception out. *)
Inductive result (A : Type) : Type :=
| Returned (a : A)
| Raised (e : exn).

Arguments Returned {A} a.
Arguments Raised {A} e.

Definition returned {A} (r : result A) : bool :=
  match r with
  | Returned _ => true
  | Raised _ => false
  end.

(** Python bytes. *)
Definition bytes : Type := list byte.

(** Truthiness of a bytes object or a list: empty is false. *)
Definition truthy {A} (l : list A) : bool :=
  match l with
  | [] => false
  | _ :: _ => true
  end.

(** ** utils/config.py *)

Module config.

Definition PATH_GEN_STEP_SIZE : Q := 50.
Definition DIST_PER_STEP : Q := 346 # 10.
Definition DEFAULT_CURE_TIME_S : Q := 3.
Definition UV_COMMAND_OVERHEAD_S : Q := 1.
Definition MOVE_PROCESS_OVERHEAD_S : Q := 1 # 2.

End config.

(** ** utils/uv_controller.py: class UVcontroller *)

Module UVcontroller.

(** The [serial.Serial] object, as far as the class looks at it. *)
Record Serial : Type := { is_open : bool }.

Record t : Type := {
  serial : option Serial;
  _is_connected : bool
}.

Definition __init__ : t :=
  {| serial := None; _is_connected := false |}.

(** [self.serial and self.serial.is_open] *)
Definition serial_open (uv : t) : bool :=
  match serial uv with
  | Some s => is_open s
  | None => false
  end.

(** [is_connected]: the flag, the port object and the port's own state. *)
Definition is_connected (uv : t) : bool :=
  _is_connected uv && serial_open uv.

(** [connect]; [opening] is what [serial.Serial(port, ...)] does. *)
Definition connect (uv : t) (opening : outcome)
  : t * result bool :=
  if serial_open uv then
    ({| serial := serial uv; _is_connected := true |}, Returned true)
  else
    match opening with
    | Done =>
        ({| serial := Some {| is_open := true |}; _is_connected := true |},
         Returned true)
    | Throws e =>
        if is_Exception e then
          ({| serial := None; _is_connected := false |}, Returned false)
        else (uv, Raised e)
    end.

(** [disconnect]; [closing] is what [self.serial.close()] does. *)
Definition disconnect (uv : t) (closing : outcome)
  : t * result unit :=
  if serial_open uv then
    match closing with
    | Done => ({| serial := None; _is_connected := false |}, Returned tt)
    | Throws e =>
        (* finally: the port is dropped whatever happened *)
        ({| serial := None; _is_connected := false |},
         if is_Exception e then Returned tt else Raised e)
    end
  else
    ({| serial := serial uv; _is_connected := false |}, Returned tt).

(** One exchange on the port: buffers reset, [write], one second of
    sleep, [read_all].  Either the device's answer or the exception
    one of these calls raised. *)
Inductive exchange : Type :=
| Answer (response : bytes)
| Broken (e : exn).

(** [send_command]: empty bytes on every failure. *)
Definition send_command (uv : t) (command : bytes) (io : exchange)
  : result bytes :=
  if negb (is_connected uv) then Returned []
  else
    match io with
    | Answer response => Returned response
    | Broken e => if is_Exception e then Returned [] else Raised e
    end.

Definition CMD_STATUS : bytes := [xa5; xc4; x00; x69].
Definition CMD_ON : bytes := [xa5; xc0; x01; x66].
Definition CMD_OFF : bytes := [xa5; xc1; x01; x67].

(** [uv_on]: "Assume success if command sent". *)
Definition uv_on (uv : t) (io : exchange) : result bool :=
  match send_command uv CMD_ON io with
  | Returned response => Returned (truthy response)
  | Raised e => Raised e
  end.

Definition uv_off (uv : t) (io : exchange) : result bool :=
  match send_command uv CMD_OFF io with
  | Returned response => Returned (truthy response)
  | Raised e => Raised e
  end.

(** [bytes.hex()]: two lowercase hexadecimal digits for every byte. *)
Definition hex_digit (n : N) : ascii :=
  match n with
  | 0 => "0" | 1 => "1" | 2 => "2" | 3 => "3" | 4 => "4" | 5 => "5"
  | 6 => "6" | 7 => "7" | 8 => "8" | 9 => "9" | 10 => "a" | 11 => "b"
  | 12 => "c" | 13 => "d" | 14 => "e" | _ => "f"
  end%N%char.

Definition hex_of_byte (b : byte) : list ascii :=
  [hex_digit (Byte.to_N b / 16); hex_digit (Byte.to_N b mod 16)].

Definition hex (b : bytes) : list ascii := flat_map hex_of_byte b.

(** [s[-1]]: the last character, or the [IndexError] of an empty string. *)
Fixpoint last_char (s : list ascii) : option ascii :=
  match s with
  | [] => None
  | [c] => Some c
  | _ :: rest => last_char rest
  end.

(** [uv_port_status]: [None] without an answer, otherwise whether the
    last character of the answer in hexadecimal is a 1. *)
Definition uv_port_status (uv : t) (io : exchange) : result (option bool) :=
  match send_command uv CMD_STATUS io with
  | Raised e => Raised e
  | Returned response =>
      if negb (truthy response) then Returned None
      else
        let response_hex := hex response in
        match last_char response_hex with
        | Some status_char => Returned (Some (Ascii.eqb status_char "1"))
        | None => Returned None          (* except IndexError *)
        end
  end.

End UVcontroller.

(** ** utils/motion_system.py: class MotionSystem *)

Module MotionSystem.

(** A [Thorlabs.KinesisMotor] handle, named by the serial it was opened on. *)
Record KinesisMotor : Type := { opened_on : Z }.

Record t : Type := {
  x_serial : Z;
  y_serial : Z;
  dist_per_step : Q;
  stage_x : option KinesisMotor;
  stage_y : option KinesisMotor;
  _is_connected : bool
}.

Definition __init__ (x_serial y_serial : Z) (dist_per_step : Q)
  : result t :=
  if Qeq_bool dist_per_step 0 then Raised ValueError
  else Returned {| x_serial := x_serial; y_serial := y_serial;
                   dist_per_step := dist_per_step;
                   stage_x := None; stage_y := None;
                   _is_connected := false |}.

Definition with_state (m : t)
    (sx sy : option KinesisMotor) (flag : bool) : t :=
  {| x_serial := x_serial m; y_serial := y_serial m;
     dist_per_step := dist_per_step m;
     stage_x := sx; stage_y := sy; _is_connected := flag |}.

(** [if self.stage_x: self.stage_x.close()]: nothing to do on [None]. *)
Definition close_if (stage : option KinesisMotor) (closing : outcome)
  : outcome :=
  match stage with
  | Some _ => closing
  | None => Done
  end.

(** The device calls of [connect]: the two constructors, and the two
    [close] calls of the exception handler. *)
Record connecting : Type := {
  open_x : outcome;
  open_y : outcome;
  undo_x : outcome;
  undo_y : outcome
}.

(** The [except Exception] block of [connect]: it closes what is open
    and clears the object; an exception raised by a [close] in here is
    not caught by anything. *)
Definition connect_failed (m : t) (io : connecting) (e : exn)
  : t * result bool :=
  if is_Exception e then
    match close_if (stage_x m) (undo_x io) with
    | Throws e' => (m, Raised e')
    | Done =>
        match close_if (stage_y m) (undo_y io) with
        | Throws e' => (m, Raised e')
        | Done => (with_state m None None false, Returned false)
        end
    end
  else (m, Raised e).

Definition connect (m : t) (io : connecting)
  : t * result bool :=
  if _is_connected m then (m, Returned true)
  else
    match open_x io with
    | Throws e => connect_failed m io e
    | Done =>
        let m1 :=
          with_state m (Some {| opened_on := x_serial m |}) (stage_y m)
                     (_is_connected m) in
        match open_y io with
        | Throws e => connect_failed m1 io e
        | Done =>
            (with_state m1 (stage_x m1) (Some {| opened_on := y_serial m |})
                        true,
             Returned true)
        end
    end.

(** The device calls of [disconnect]. *)
Record closing : Type := {
  close_x : outcome;
  close_y : outcome
}.

(** The [try] block of [disconnect]: X is closed, then Y. *)
Definition close_stages (m : t) (io : closing) : outcome :=
  match close_if (stage_x m) (close_x io) with
  | Throws e => Throws e
  | Done => close_if (stage_y m) (close_y io)
  end.

Definition disconnect (m : t) (io : closing)
  : t * result unit :=
  if negb (_is_connected m) then (m, Returned tt)
  else
    (* finally: the handles and the flag are cleared in every case *)
    (with_state m None None false,
     match close_stages m io with
     | Done => Returned tt
     | Throws e => if is_Exception e then Returned tt else Raised e
     end).

Definition is_connected (m : t) : bool :=
  _is_connected m
  && match stage_x m with Some _ => true | None => false end
  && match stage_y m with Some _ => true | None => false end.

(** [move_to_um]; [moving] is what the two [move_to] and the two
    [wait_move] calls do together. *)
Definition move_to_um (m : t) (x_pos_um y_pos_um : Q)
    (moving : outcome) : result bool :=
  if negb (is_connected m) then Returned false
  else
    match moving with
    | Done => Returned true
    | Throws e => if is_Exception e then Returned false else Raised e
    end.

(** What the two [get_position] calls of [get_position_um] do: they give
    the step counts of the stages, or one of them raises. *)
Inductive reading : Type :=
| Steps (x_steps y_steps : Q)
| Unread (e : exn).

(** [get_position_um]: the step counts divided by [dist_per_step], or
    [(None, None)]. *)
Definition get_position_um (m : t) (r : reading)
  : result (option Q * option Q) :=
  if negb (is_connected m) then Returned (None, None)
  else
    match r with
    | Steps x_steps y_steps =>
        Returned (Some (x_steps / dist_per_step m),
                  Some (y_steps / dist_per_step m))
    | Unread e =>
        if is_Exception e then Returned (None, None) else Raised e
    end.

(** [home]; [homing] is what the two [home] calls and, with [wait], the
    two [wait_move] calls do together. *)
Definition home (m : t) (wait : bool) (homing : outcome) : result bool :=
  if negb (is_connected m) then Returned false
  else
    match homing with
    | Done => Returned true
    | Throws e => if is_Exception e then Returned false else Raised e
    end.

End MotionSystem.

(** ** utils/helpers.py *)

Module helpers.

(** [divmod] on non-negative numbers. *)
Definition divmod (x y : Q) : Z * Q :=
  let q := Qfloor (x / y) in (q, x - inject_Z q * y).

(** [round(x)] to an integer: to nearest, ties to even. *)
Definition round (x : Q) : Z :=
  let f := Qfloor x in
  let d := x - inject_Z f in
  match (d ?= 1 # 2)%Q with
  | Lt => f
  | Gt => (f + 1)%Z
  | Eq => if Z.even f then f else (f + 1)%Z
  end.

Definition seconds_to_hms (seconds : Q) : Z * Z * Z :=
  if negb (Qle_bool 0 seconds) then (0, 0, 0)%Z
  else
    let '(hours, remainder) := divmod seconds 3600 in
    let '(minutes, seconds_rem) := divmod remainder 60 in
    (hours, minutes, round seconds_rem).

End helpers.

(** ** utils/experiment_runner.py: class ExperimentRunner *)

Module ExperimentRunner.

(** *** The coordinate file and [np.loadtxt] *)

(** One comma-separated field of a line: text that reads as a number,
    or text that does not. *)
Inductive field : Type :=
| Num (v : Q)
| Junk.

(** What is found at [input_file]: nothing, a file that cannot be read,
    or the fields of its lines. *)
Inductive input_file : Type :=
| NoFile
| Unreadable (e : exn)
| Lines (content : list (list field)).

(** A numpy array of floats of dimension 0, 1 or 2. *)
Inductive ndarray : Type :=
| Array0 (v : Q)
| Array1 (v : list Q)
| Array2 (rows : list (list Q)) (columns : nat).

Fixpoint numbers (fields : list field) : option (list Q) :=
  match fields with
  | [] => Some []
  | Num v :: rest => option_map (cons v) (numbers rest)
  | Junk :: _ => None
  end.

Fixpoint table (content : list (list field)) : option (list (list Q)) :=
  match content with
  | [] => Some []
  | [] :: rest => table rest                    (* a blank line is skipped *)
  | l :: rest =>
      match numbers l, table rest with
      | Some r, Some rs => Some (r :: rs)
      | _, _ => None
      end
  end.

(** The result is squeezed ([ndmin=0]): one row or one column gives a
    1-D array, a single number a 0-D array. *)
Definition squeeze (rows : list (list Q)) (columns : nat) : ndarray :=
  match rows with
  | [[v]] => Array0 v
  | [r] => Array1 r
  | _ => if (columns =? 1)%nat then Array1 (map (fun r => nth 0 r 0) rows)
         else Array2 rows columns
  end.

(** [np.loadtxt(path, delimiter=',')] on the lines of a file: a field
    that is no number, or a line with another number of fields than the
    first, is a [ValueError]; no line at all gives an empty 1-D array. *)
Definition loadtxt (content : list (list field)) : result ndarray :=
  match table content with
  | None => Raised ValueError
  | Some [] => Returned (Array1 [])
  | Some (r :: rs) =>
      if forallb (fun r' => (length r' =? length r)%nat) rs
      then Returned (squeeze (r :: rs) (length r))
      else Raised ValueError
  end.

(** *** The runner *)

Record t : Type := {
  motion_system : MotionSystem.t;
  uv_controller : UVcontroller.t;
  cure_time_s : Q;
  coordinates : option ndarray;
  total_steps : Z;
  uv_command_overhead_s : Q;
  move_process_overhead_s : Q
}.

Definition __init__ (motion_system : MotionSystem.t)
    (uv_controller : UVcontroller.t) (cure_time_s : Q)
  : result t :=
  if Qle_bool cure_time_s 0 then Raised ValueError
  else Returned {| motion_system := motion_system; uv_controller := uv_controller;
                   cure_time_s := cure_time_s;
                   coordinates := None; total_steps := 0;
                   uv_command_overhead_s := config.UV_COMMAND_OVERHEAD_S;
                   move_process_overhead_s :=
                     config.MOVE_PROCESS_OVERHEAD_S |}.

Definition with_coordinates (r : t)
    (c : option ndarray) (n : Z) : t :=
  {| motion_system := motion_system r; uv_controller := uv_controller r; cure_time_s := cure_time_s r;
     coordinates := c; total_steps := n;
     uv_command_overhead_s := uv_command_overhead_s r;
     move_process_overhead_s := move_process_overhead_s r |}.

Definition with_motion (r : t)
    (m : MotionSystem.t) : t :=
  {| motion_system := m; uv_controller := uv_controller r; cure_time_s := cure_time_s r;
     coordinates := coordinates r; total_steps := total_steps r;
     uv_command_overhead_s := uv_command_overhead_s r;
     move_process_overhead_s := move_process_overhead_s r |}.

Definition with_uv (r : t)
    (u : UVcontroller.t) : t :=
  {| motion_system := motion_system r; uv_controller := u; cure_time_s := cure_time_s r;
     coordinates := coordinates r; total_steps := total_steps r;
     uv_command_overhead_s := uv_command_overhead_s r;
     move_process_overhead_s := move_process_overhead_s r |}.

(** The three [except] clauses of [load_coordinates]. *)
Definition load_failed (r : t) (e : exn)
  : t * result bool :=
  if is_Exception e then (with_coordinates r None 0, Returned false)
  else (r, Raised e).

(** [if ndim == 1 and shape[0] >= 2: reshape(1, -1)] *)
Definition reshape_single_row (a : ndarray) : ndarray :=
  match a with
  | Array1 v => if (2 <=? length v)%nat then Array2 [v] (length v) else a
  | _ => a
  end.

Definition load_coordinates (r : t) (f : input_file)
  : t * result bool :=
  match f with
  | NoFile => (r, Returned false)
  | Unreadable e => load_failed r e
  | Lines content =>
      match loadtxt content with
      | Raised e => load_failed r e
      | Returned a =>
          match reshape_single_row a with
          | Array2 rows columns =>
              if (columns <? 2)%nat then load_failed r ValueError
              else
                let n := Z.of_nat (length rows) in
                let r' := with_coordinates r (Some (Array2 rows columns)) n in
                if (n =? 0)%Z then (r', Returned false)
                else (r', Returned true)
          | _ => load_failed r ValueError
          end
      end
  end.

(** The rows of the loaded array, as [enumerate] goes through them. *)
Definition rows_of (c : option ndarray) : list (list Q) :=
  match c with
  | Some (Array2 rows _) => rows
  | _ => []
  end.

Definition estimate_duration (r : t) : Q :=
  if (total_steps r <=? 0)%Z then 0
  else
    inject_Z (total_steps r) * (cure_time_s r + move_process_overhead_s r)
    + uv_command_overhead_s r + uv_command_overhead_s r.

(** *** The run: devices, trace and exceptions *)

(** What the world does during one run: what is found at [input_file],
    and what the device or system call in slot k of the run does
    ([dev]), with the bytes the UV source answers should that call be
    an exchange on its port ([rx]).  Every method call owns as many
    consecutive slots as it can make device calls. *)
Record Env : Type := {
  input : input_file;
  dev : nat -> outcome;
  rx : nat -> bytes
}.

(** The calls the runner makes on its two capabilities, with their
    results, and the log lines that mark the run's progress. *)
Inductive Event : Type :=
| LoadCoordinates (r : result bool)
| MotionConnect (r : result bool)
| UvConnect (r : result bool)
| MotionDisconnect (r : result unit)
| UvDisconnect (r : result unit)
| MoveTo (x y : Q) (r : result bool)
| UvOn (r : result bool)
| UvOff (r : result bool)
| SkipUvOff                 (* "Skipping UV OFF (controller not connected)." *)
| Cure (seconds : Q) (r : result unit)
| AllStepsProcessed         (* "All coordinate steps processed successfully." *)
| Interrupted               (* "Keyboard interrupt detected!" *)
| CriticalError (e : exn)   (* "A critical error occurred ..." *)
| CleanupSequence.          (* "Executing cleanup sequence..." *)

Record World : Type := {
  self : t;
  tick : nat;               (* the next free slot of [dev] *)
  log : list Event
}.

(** A computation on the world that returns or raises. *)
Definition M (A : Type) : Type := World -> World * result A.

Definition ret {A} (a : A) : M A := fun w => (w, Returned a).

Definition raise {A} (e : exn) : M A := fun w => (w, Raised e).

Definition bind {A B} (c : M A) (k : A -> M B) : M B :=
  fun w =>
    match c w with
    | (w', Returned a) => k a w'
    | (w', Raised e) => (w', Raised e)
    end.

Notation "x <- c ;; k" := (bind c (fun x => k))
  (at level 61, c at next level, right associativity).
Notation "c ;;; k" := (bind c (fun _ => k))
  (at level 61, right associativity).

Definition emit (ev : Event) : M unit :=
  fun w => ({| self := self w; tick := tick w; log := log w ++ [ev] |},
            Returned tt).

(** A method call that makes up to [ticks] device calls: it is given
    the object and its first slot, and is logged with its result. *)
Definition call {A} (ev : result A -> Event) (ticks : nat)
    (method : t -> nat -> t * result A) : M A :=
  fun w =>
    let '(r, res) := method (self w) (tick w) in
    ({| self := r; tick := tick w + ticks; log := log w ++ [ev res] |}, res).

(** [if not ok: raise RuntimeError(...)] *)
Definition require (ok : bool) : M unit :=
  if ok then ret tt else raise RuntimeError.

Section Run.

Variable env : Env.

Definition exchange_at (k : nat) : UVcontroller.exchange :=
  match dev env k with
  | Done => UVcontroller.Answer (rx env k)
  | Throws e => UVcontroller.Broken e
  end.

Definition do_load_coordinates : M bool :=
  call LoadCoordinates 0 (fun r _ => load_coordinates r (input env)).

Definition motion_connect : M bool :=
  call MotionConnect 4 (fun r k =>
    let '(m, res) :=
      MotionSystem.connect (motion_system r)
        {| MotionSystem.open_x := dev env k;
           MotionSystem.open_y := dev env (k + 1);
           MotionSystem.undo_x := dev env (k + 2);
           MotionSystem.undo_y := dev env (k + 3) |} in
    (with_motion r m, res)).

Definition motion_disconnect : M unit :=
  call MotionDisconnect 2 (fun r k =>
    let '(m, res) :=
      MotionSystem.disconnect (motion_system r)
        {| MotionSystem.close_x := dev env k;
           MotionSystem.close_y := dev env (k + 1) |} in
    (with_motion r m, res)).

Definition move_to_um (x y : Q) : M bool :=
  call (MoveTo x y) 1 (fun r k =>
    (r, MotionSystem.move_to_um (motion_system r) x y (dev env k))).

Definition uv_connect : M bool :=
  call UvConnect 1 (fun r k =>
    let '(u, res) := UVcontroller.connect (uv_controller r) (dev env k) in
    (with_uv r u, res)).

Definition uv_disconnect : M unit :=
  call UvDisconnect 1 (fun r k =>
    let '(u, res) :=
      UVcontroller.disconnect (uv_controller r) (dev env k) in
    (with_uv r u, res)).

Definition uv_on : M bool :=
  call UvOn 1 (fun r k =>
    (r, UVcontroller.uv_on (uv_controller r) (exchange_at k))).

Definition uv_off : M bool :=
  call UvOff 1 (fun r k =>
    (r, UVcontroller.uv_off (uv_controller r) (exchange_at k))).

(** [time.sleep(self.cure_time_s)] *)
Definition cure : M unit :=
  fun w =>
    call (Cure (cure_time_s (self w))) 1 (fun r k =>
      (r, match dev env k with
          | Done => Returned tt
          | Throws e => Raised e
          end)) w.

Definition _connect_hardware : M bool :=
  motion_ok <- motion_connect ;;
  if negb motion_ok then ret false
  else
    uv_ok <- uv_connect ;;
    if negb uv_ok then
      motion_disconnect ;;; ret false
    else
      fun w =>
        if negb (MotionSystem.is_connected (motion_system (self w)))
           || negb (UVcontroller.is_connected (uv_controller (self w)))
        then (uv_disconnect ;;; motion_disconnect ;;; ret false) w
        else ret true w.

Definition _disconnect_hardware : M unit :=
  (fun w =>
     if UVcontroller.is_connected (uv_controller (self w))
     then (uv_off ;;; ret tt) w
     else emit SkipUvOff w) ;;;
  uv_disconnect ;;;
  motion_disconnect.

(** The [for] loop of [run]: move, then wait the cure time. *)
Fixpoint steps (rows : list (list Q)) : M unit :=
  match rows with
  | [] => ret tt
  | row :: rest =>
      let x_pos := nth 0 row 0 in
      let y_pos := nth 1 row 0 in
      ok <- move_to_um x_pos y_pos ;;
      require ok ;;;
      cure ;;;
      steps rest
  end.

(** The [try] block of [run], up to the point where the UV source is
    switched on: load, connect, and the move to the origin. *)
Definition setup (start_at_origin : bool) : M unit :=
  ok <- do_load_coordinates ;;
  require ok ;;;
  ok <- _connect_hardware ;;
  require ok ;;;
  (* self.estimate_duration() and time.monotonic(): no effect *)
  if start_at_origin then
    ok <- move_to_um 0 0 ;; require ok
  else ret tt.

(** The loop over [self.coordinates] and the log line after it. *)
Definition all_steps : M unit :=
  (fun w => steps (rows_of (coordinates (self w))) w) ;;;
  emit AllStepsProcessed.

(** The rest of the [try] block: UV on, and the loop over the rows. *)
Definition exposure : M unit :=
  ok <- uv_on ;;
  require ok ;;;
  all_steps.

Definition attempt (start_at_origin : bool) : M unit :=
  setup start_at_origin ;;; exposure.

(** [run]: the [try] block, the two [except] clauses, and the
    [finally] block with the cleanup sequence. *)
Definition run (start_at_origin : bool) : M bool :=
  fun w =>
    let '(w1, r) := attempt start_at_origin w in
    let '(w2, run_success_status) :=
      match r with
      | Returned _ => (w1, true)
      | Raised e =>
          (fst (emit (if is_Exception e then CriticalError e
                      else Interrupted) w1),
           false)
      end in
    (emit CleanupSequence ;;;
     _disconnect_hardware ;;;
     ret run_success_status) w2.

End Run.

End ExperimentRunner.

(** ** utils/path_generator.py: class ImageTSPOptimizer *)

Module ImageTSPOptimizer.

Local Open Scope Z_scope.

(** A pixel, as a row of [np.column_stack(np.where(...))]: (row, col). *)
Definition point : Type := (Z * Z)%type.

(** [self.labels]: the label of every pixel, 0 for the background. *)
Definition image : Type := list (list nat).

(** *** Shapes: [np.column_stack(np.where(self.labels == label_id))] *)

Fixpoint where_in_row (label_id : nat) (r c : Z) (row : list nat)
  : list point :=
  match row with
  | [] => []
  | l :: rest =>
      (if (l =? label_id)%nat then [(r, c)] else [])
        ++ where_in_row label_id r (c + 1) rest
  end.

Fixpoint where_from (label_id : nat) (r : Z) (rows : image) : list point :=
  match rows with
  | [] => []
  | row :: rest =>
      where_in_row label_id r 0 row ++ where_from label_id (r + 1) rest
  end.

Definition shape_coords (labels : image) (label_id : nat) : list point :=
  where_from label_id 0 labels.

(** *** Distances: [np.round(squareform(pdist(coords))).astype(int)] *)

Definition sq_euclidean (p q : point) : Z :=
  (fst p - fst q) ^ 2 + (snd p - snd q) ^ 2.

(** The square root of an integer is never half-way between two
    integers, so its nearest integer is [floor ((isqrt (4 s) + 1) / 2)]. *)
Definition rounded_sqrt (s : Z) : Z := (Z.sqrt (4 * s) + 1) / 2.

Definition int_distances (coords : list point) (i j : nat) : Z :=
  rounded_sqrt (sq_euclidean (nth i coords (0, 0)) (nth j coords (0, 0))).

(** *** The routing model: [RoutingIndexManager(num_coords, 1, 0)]

    One vehicle that starts and ends at node 0.  The manager gives the
    nodes the indices [0 .. num_coords - 1], of which 0 is the vehicle's
    start, and gives the vehicle's end the index [num_coords], which
    stands for node 0 again. *)

Definition Start : nat := 0%nat.

Definition IsEnd (num_coords index : nat) : bool :=
  (num_coords <=? index)%nat.

Definition IndexToNode (num_coords index : nat) : nat :=
  if (index <? num_coords)%nat then index else 0%nat.

Definition End (num_coords : nat) : nat := num_coords.

Definition distance_callback (coords : list point)
    (from_index to_index : nat) : Z :=
  let num_coords := length coords in
  let from_node := IndexToNode num_coords from_index in
  let to_node := IndexToNode num_coords to_index in
  if (from_node <? num_coords)%nat && (to_node <? num_coords)%nat
  then int_distances coords from_node to_node
  else 999999.

(** The arc cost evaluator prices a route by the sum of the callback
    over its arcs, the arc into the vehicle's end included. *)
Fixpoint arcs_cost (callback : nat -> nat -> Z) (indices : list nat) : Z :=
  match indices with
  | from_index :: (to_index :: _) as rest =>
      callback from_index to_index + arcs_cost callback rest
  | _ => 0
  end.

(** The objective of the routing model for the route that visits the
    indices [visited] in this order and then ends. *)
Definition objective (coords : list point) (visited : list nat) : Z :=
  arcs_cost (distance_callback coords) (visited ++ [End (length coords)]).

(** The length of the open path through the same points. *)
Definition open_path_cost (coords : list point) (visited : list nat) : Z :=
  arcs_cost (int_distances coords) visited.

(** *** [_solve_tsp_for_coords] *)

(** What [routing.SolveWithParameters] does: it returns an assignment,
    read through [solution.Value(routing.NextVar(index))], or none, or
    something in the [try] block raises. *)
Inductive solving : Type :=
| Solution (next : nat -> nat)
| NoSolutionFound
| SolverError.

(** The [while not routing.IsEnd(index)] loop; [None] when it has not
    ended after [fuel] iterations. *)
Fixpoint route_indices (fuel num_coords : nat) (next : nat -> nat)
    (index : nat) : option (list nat) :=
  match fuel with
  | O => None
  | S fuel' =>
      if IsEnd num_coords index then Some []
      else
        option_map (cons (IndexToNode num_coords index))
                   (route_indices fuel' num_coords next (next index))
  end.

(** [coords[route_indices].tolist()] *)
Definition take_rows (coords : list point) (indices : list nat)
  : list point :=
  map (fun i => nth i coords (0, 0)) indices.

(** The method returns a list of points or Python's [None]; the outer
    [option] is [None] when the loop is still running after [fuel]
    iterations. *)
Definition _solve_tsp_for_coords (fuel : nat) (coords : list point)
    (s : solving) : option (option (list point)) :=
  let num_coords := length coords in
  if (num_coords <=? 1)%nat then Some (Some coords)
  else
    match s with
    | Solution next =>
        match route_indices fuel num_coords next Start with
        | Some indices => Some (Some (take_rows coords indices))
        | None => None
        end
    | NoSolutionFound => Some None
    | SolverError => Some None
    end.

(** *** [process_shapes] *)

Section Shapes.

(** [self._solve_tsp_for_coords], as [process_shapes] sees it. *)
Variable solve : list point -> option (list point).

(** The body of the [for label_id in range(1, self.num_labels)] loop,
    with [all_paths_pixels] passed along. *)
Fixpoint process_labels (labels : image) (label_ids : list nat)
    (all_paths_pixels : list point) : list point :=
  match label_ids with
  | [] => all_paths_pixels
  | label_id :: rest =>
      let shape_coords_pixels := shape_coords labels label_id in
      if (length shape_coords_pixels =? 0)%nat
      then process_labels labels rest all_paths_pixels
      else
        match solve shape_coords_pixels with
        | Some optimized_path_pixels =>
            if truthy optimized_path_pixels
            then process_labels labels rest
                   (all_paths_pixels ++ optimized_path_pixels)
            else process_labels labels rest all_paths_pixels
        | None => process_labels labels rest all_paths_pixels
        end
  end.

Definition process_shapes (labels : option image) (num_labels : nat)
  : list point :=
  match labels with
  | None => []
  | Some l =>
      if (num_labels <=? 1)%nat then []
      else process_labels l (seq 1 (num_labels - 1)%nat) []
  end.

End Shapes.

(** *** [save_optimized_path] *)

(** What the file system does: whether [open(path, "w")] succeeds,
    whether the k-th [f.write] returns, and whether the flush goes
    through that is made when the [with] block closes the file.  The
    file is buffered: the text of a write that returned may reach the
    disk only at that flush. *)
Record writing : Type := {
  open_ok : bool;
  write_ok : nat -> bool;
  close_ok : bool
}.

(** The coordinate file the method leaves behind.  [NotOpened]: [open]
    was not called, or it raised.  [Incomplete]: the file was opened for
    writing and a write or the closing flush raised; it holds some
    beginning of the text, and the model does not say how much.
    [Complete]: every write and the close went through, and the file
    holds these records. *)
Inductive output_file : Type :=
| NotOpened
| Incomplete
| Complete (records : list (Q * Q)).

(** One record of the coordinate file, [(x, y)], before it is printed
    with three decimals: [x = col * step_size], [y = row * step_size]. *)
Definition scaled (step_size : Q) (p : point) : Q * Q :=
  let scaled_y := (inject_Z (fst p) * step_size)%Q in
  let scaled_x := (inject_Z (snd p) * step_size)%Q in
  (scaled_x, scaled_y).

(** The [for point in self.all_paths_pixels] loop: the records handed
    to the [f.write] calls that returned, and whether every call
    returned; the loop ends at the first that raises. *)
Fixpoint write_points (io : writing) (step_size : Q) (k : nat)
    (points : list point) : list (Q * Q) * bool :=
  match points with
  | [] => ([], true)
  | p :: rest =>
      if write_ok io k then
        let '(written, ok) := write_points io step_size (S k) rest in
        (scaled step_size p :: written, ok)
      else ([], false)
  end.

(** The method's return value, and the file it leaves.  Leaving the
    [with] block closes the file, also after a write that raised; an
    exception of a write or of the close is caught by the [except]
    clauses, which return [False]. *)
Definition save_optimized_path (all_paths_pixels : list point)
    (step_size : Q) (io : writing) : bool * output_file :=
  if negb (truthy all_paths_pixels) then (false, NotOpened)
  else if negb (open_ok io) then (false, NotOpened)
  else
    let '(written, ok) := write_points io step_size 0%nat all_paths_pixels in
    if ok && close_ok io then (true, Complete written)
    else (false, Incomplete).

(** *** [run]: the pipeline *)

(** What OpenCV makes of the image file: [cv2.imread] returns [None], or
    one of its calls raises, or [cv2.connectedComponents] labels the
    thresholded image with [num_labels] labels, the background
    included. *)
Inductive segmentation : Type :=
| NoImage
| CvError
| Labelled (labels : image) (num_labels : nat).

(** [run]: load, threshold, label, [process_shapes],
    [save_optimized_path]; the two visualisations catch their own
    exceptions and do not change the result.  The value returned, and
    the coordinate file left behind. *)
Definition run (solve : list point -> option (list point)) (step_size : Q)
    (cv : segmentation) (io : writing) : bool * output_file :=
  match cv with
  | NoImage => (false, NotOpened)        (* except FileNotFoundError *)
  | CvError => (false, NotOpened)        (* except Exception *)
  | Labelled labels num_labels =>
      let all_paths_pixels := process_shapes solve (Some labels) num_labels in
      save_optimized_path all_paths_pixels step_size io
  end.

End ImageTSPOptimizer.

(** ** gui.py: class ExperimentWorker, the stepping loop of [run] *)

Module ExperimentWorker.

(** [float(k)] for an integer below 2^53, where the conversion is exact. *)
Definition float_of_Z (k : Z) : float :=
  PrimFloat.of_uint63 (Uint63.of_Z k).

(** [int(x)] for a finite float: the fraction is dropped. *)
Definition int (x : float) : Z :=
  match Prim2SF x with
  | S754_finite s m e =>
      let v := if (0 <=? e)%Z then (Z.pos m * 2 ^ e)%Z
               else (Z.pos m / 2 ^ (- e))%Z in
      if s then (- v)%Z else v
  | _ => 0%Z
  end.

(** [int((i / total_steps) * 100)], in double precision as Python
    computes it. *)
Definition percentage (i total_steps : Z) : Z :=
  int (PrimFloat.mul (PrimFloat.div (float_of_Z i) (float_of_Z total_steps))
                     (float_of_Z 100)).

(** The status line
    [f"Running Step {i}/{total_steps} (X={x_pos:.2f}, Y={y_pos:.2f})"],
    by the values printed in it. *)
Record status : Type := {
  step : Z;
  of_steps : Z;
  target_x : Q;
  target_y : Q
}.

(** What [progress_update] carries: the percentage, the status, and
    the remaining time as the hours, minutes and seconds printed in
    [f"{rh:02d}:{rm:02d}:{rs:02d}"]. *)
Record ProgressEvent : Type := {
  percent : Z;
  current_status : status;
  remaining : Z * Z * Z
}.

(** What the loop meets: the value of [self._abort_requested] at the
    top of step i, the reading of [time.monotonic()] taken for the
    elapsed time in step i, and what the stage does on the move of
    step i. *)
Record Env : Type := {
  abort_requested : nat -> bool;
  monotonic : nat -> Q;
  moving : nat -> outcome
}.

Section Stepping.

Variable env : Env.
Variable runner : ExperimentRunner.t.
Variable estimated_total_seconds : Q.
Variable run_start_time : Q.

Definition total_steps : Z := ExperimentRunner.total_steps runner.

(** The remaining-time estimate of step i. *)
Definition estimated_remaining_sec (i : nat) : Q :=
  let remaining_steps := (total_steps - Z.of_nat i)%Z in
  let elapsed_time := monotonic env i - run_start_time in
  let avg_step_time :=
    if (0 <? i)%nat then elapsed_time / inject_Z (Z.of_nat i)
    else estimated_total_seconds / inject_Z (Z.max 1 total_steps) in
  inject_Z remaining_steps * avg_step_time.

(** The event step i emits for the row it is about to move to. *)
Definition progress (i : nat) (row : list Q) : ProgressEvent :=
  {| percent := percentage (Z.of_nat i) total_steps;
     current_status :=
       {| step := Z.of_nat i; of_steps := total_steps;
          target_x := nth 0 row 0; target_y := nth 1 row 0 |};
     remaining := helpers.seconds_to_hms (estimated_remaining_sec i) |}.

(** [for i, row in enumerate(self.runner.coordinates, start=1)]: the
    events emitted, and how the loop is left. *)
Fixpoint stepping (i : nat) (rows : list (list Q))
  : list ProgressEvent * result unit :=
  match rows with
  | [] => ([], Returned tt)
  | row :: rest =>
      if abort_requested env i then ([], Raised InterruptedError)
      else
        let x_pos := nth 0 row 0 in
        let y_pos := nth 1 row 0 in
        let ev := progress i row in
        match MotionSystem.move_to_um
                (ExperimentRunner.motion_system runner)
                x_pos y_pos (moving env i) with
        | Returned true =>
            (* time.sleep(self.runner.cure_time_s) *)
            let '(evs, r) := stepping (S i) rest in (ev :: evs, r)
        | Returned false => ([ev], Raised RuntimeError)
        | Raised e => ([ev], Raised e)
        end
  end.

Definition stepping_loop : list ProgressEvent * result unit :=
  stepping 1 (ExperimentRunner.rows_of (ExperimentRunner.coordinates runner)).

End Stepping.

End ExperimentWorker.

(** * Vocabulary of the statements, and scenarios *)

(** The stages of the configuration file, not yet connected. *)
Definition idle_stages : MotionSystem.t :=
  {| MotionSystem.x_serial := 27269534; MotionSystem.y_serial := 27269887;
     MotionSystem.dist_per_step := config.DIST_PER_STEP;
     MotionSystem.stage_x := None; MotionSystem.stage_y := None;
     MotionSystem._is_connected := false |}.

(** X opens, Y does not, and closing X in the handler raises as well. *)
Definition half_open : MotionSystem.connecting :=
  {| MotionSystem.open_x := Done;
     MotionSystem.open_y := Throws DeviceError;
     MotionSystem.undo_x := Throws DeviceError;
     MotionSystem.undo_y := Done |}.

Definition closes_well : MotionSystem.closing :=
  {| MotionSystem.close_x := Done; MotionSystem.close_y := Done |}.

Definition closes_badly : MotionSystem.closing :=
  {| MotionSystem.close_x := Throws DeviceError;
     MotionSystem.close_y := Done |}.

(** Three steps loaded, two seconds of cure, no overhead. *)
Definition three_steps_no_overhead : ExperimentRunner.t :=
  {| ExperimentRunner.motion_system := idle_stages;
     ExperimentRunner.uv_controller := UVcontroller.__init__;
     ExperimentRunner.cure_time_s := 2;
     ExperimentRunner.coordinates :=
       Some (ExperimentRunner.Array2 [[0; 0]; [50; 0]; [50; 50]] 2);
     ExperimentRunner.total_steps := 3;
     ExperimentRunner.uv_command_overhead_s := 0;
     ExperimentRunner.move_process_overhead_s := 0 |}.

(** A file system on which every call succeeds. *)
Definition writable : ImageTSPOptimizer.writing :=
  {| ImageTSPOptimizer.open_ok := true;
     ImageTSPOptimizer.write_ok := fun _ => true;
     ImageTSPOptimizer.close_ok := true |}.

(** A runner on idle hardware with the default cure time, nothing loaded. *)
Definition fresh_runner : ExperimentRunner.t :=
  {| ExperimentRunner.motion_system := idle_stages;
     ExperimentRunner.uv_controller := UVcontroller.__init__;
     ExperimentRunner.cure_time_s := config.DEFAULT_CURE_TIME_S;
     ExperimentRunner.coordinates := None;
     ExperimentRunner.total_steps := 0;
     ExperimentRunner.uv_command_overhead_s := config.UV_COMMAND_OVERHEAD_S;
     ExperimentRunner.move_process_overhead_s :=
       config.MOVE_PROCESS_OVERHEAD_S |}.

(** The file ["1,2\n3,4,5\n"]. *)
Definition ragged_file : list (list ExperimentRunner.field) :=
  [[ExperimentRunner.Num 1; ExperimentRunner.Num 2];
   [ExperimentRunner.Num 3; ExperimentRunner.Num 4; ExperimentRunner.Num 5]].

(** What shape [label_id] adds to the global path: its solved order, or
    nothing when it has no pixel or no solution. *)
Definition solved_order
    (solve : list ImageTSPOptimizer.point -> option (list ImageTSPOptimizer.point))
    (labels : ImageTSPOptimizer.image) (label_id : nat)
  : list ImageTSPOptimizer.point :=
  match ImageTSPOptimizer.shape_coords labels label_id with
  | [] => []
  | shape =>
      match solve shape with
      | Some path => path
      | None => []
      end
  end.

(** Three shapes in a 2 x 5 image; the solver gives up on shape 2 and
    reverses the pixels of the others. *)
Definition three_shapes : ImageTSPOptimizer.image :=
  [[1; 0; 2; 0; 3];
   [1; 0; 2; 0; 3]]%nat.

Definition gives_up_on_column_2 (coords : list ImageTSPOptimizer.point)
  : option (list ImageTSPOptimizer.point) :=
  match coords with
  | (_, 2%Z) :: _ => None
  | _ => Some (rev coords)
  end.

(** Two pixels of one row, three columns apart. *)
Definition two_pixels : list ImageTSPOptimizer.point := [(0, 0); (0, 3)]%Z.

(** The consecutive indices of [order] are linked by [next], from
    [index] on, and the last is followed by [final]. *)
Fixpoint follows (next : nat -> nat) (index : nat) (order : list nat)
    (final : nat) : Prop :=
  match order with
  | [] => index = final
  | i :: rest => index = i /\ follows next (next i) rest final
  end.

(** The index reached from [index] after [k] steps along [next]. *)
Fixpoint after (next : nat -> nat) (k index : nat) : nat :=
  match k with
  | O => index
  | S k' => after next k' (next index)
  end.

(** The constraints the routing library puts on an assignment for a
    model of [num_coords] nodes, one vehicle and no optional node: the
    successor of a node is another node or the vehicle's end, never the
    start; no two nodes have the same successor; and there is no cycle:
    the successors of every node lead to the vehicle's end. *)
Definition routing_constraints (num_coords : nat) (next : nat -> nat) : Prop :=
  (forall i, (i < num_coords)%nat -> (1 <= next i <= num_coords)%nat)
  /\ (forall i j, (i < num_coords)%nat -> (j < num_coords)%nat ->
        next i = next j -> i = j)
  /\ (forall i, (i < num_coords)%nat ->
        exists k, after next k i = ImageTSPOptimizer.End num_coords).

(** The vehicle's route leads from its start to its end through every
    node index once. *)
Definition visits_every_node (num_coords : nat) (next : nat -> nat) : Prop :=
  exists order,
    Permutation order (seq 0 num_coords)
    /\ follows next ImageTSPOptimizer.Start order
         (ImageTSPOptimizer.End num_coords).

(** Three pixels of a corner, visited in the order 0, 2, 1. *)
Definition corner : list ImageTSPOptimizer.point := [(0, 0); (0, 1); (1, 0)]%Z.

Definition corner_next (index : nat) : nat :=
  match index with
  | 0 => 2
  | 2 => 1
  | _ => 3
  end%nat.

(** Three loaded steps on connected stages. *)
Definition three_steps_connected : ExperimentRunner.t :=
  ExperimentRunner.with_motion three_steps_no_overhead
    (MotionSystem.with_state idle_stages
       (Some {| MotionSystem.opened_on := 27269534 |})
       (Some {| MotionSystem.opened_on := 27269887 |}) true).

(** Nobody asks to stop, every move succeeds, and the clock reads two
    seconds more at every step. *)
Definition smooth_run : ExperimentWorker.Env :=
  {| ExperimentWorker.abort_requested := fun _ => false;
     ExperimentWorker.monotonic := fun i => inject_Z (2 * Z.of_nat i);
     ExperimentWorker.moving := fun _ => Done |}.

(** The log line that opens the cleanup sequence. *)
Definition is_cleanup (ev : ExperimentRunner.Event) : bool :=
  match ev with
  | ExperimentRunner.CleanupSequence => true
  | _ => false
  end.

(** A call of [uv_on], whatever it returned. *)
Definition is_uv_on (ev : ExperimentRunner.Event) : bool :=
  match ev with
  | ExperimentRunner.UvOn _ => true
  | _ => false
  end.

(** A call of [uv_off], whatever it returned. *)
Definition is_uv_off (ev : ExperimentRunner.Event) : bool :=
  match ev with
  | ExperimentRunner.UvOff _ => true
  | _ => false
  end.

(** An event of the [try] block that is neither the cleanup line nor a
    call of [uv_on]. *)
Definition step_event (ev : ExperimentRunner.Event) : Prop :=
  is_cleanup ev = false /\ is_uv_on ev = false.

(** Every event a computation adds to the log satisfies [P]. *)
Definition emits {A} (P : ExperimentRunner.Event -> Prop)
    (c : ExperimentRunner.M A) : Prop :=
  forall w, exists evs,
    ExperimentRunner.log (fst (c w)) = ExperimentRunner.log w ++ evs
    /\ Forall P evs.

(** A computation leaves the runner object as it found it. *)
Definition keeps_self {A} (c : ExperimentRunner.M A) : Prop :=
  forall w, ExperimentRunner.self (fst (c w)) = ExperimentRunner.self w.

(** The file is missing; the devices would all work. *)
Definition no_input_file : ExperimentRunner.Env :=
  {| ExperimentRunner.input := ExperimentRunner.NoFile;
     ExperimentRunner.dev := fun _ => Done;
     ExperimentRunner.rx := fun _ => [x01] |}.

(** Two rows to cure; every device call works and the UV source answers
    one byte. *)
Definition two_rows : ExperimentRunner.Env :=
  {| ExperimentRunner.input :=
       ExperimentRunner.Lines
         (map (map ExperimentRunner.Num) [[0; 0]; [50; 0]]);
     ExperimentRunner.dev := fun _ => Done;
     ExperimentRunner.rx := fun _ => [x01] |}.

(** The same, with Ctrl-C during the first cure wait (slot 8: four
    slots for the stages, one each for the UV port, the move to the
    origin, UV on and the first move). *)
Definition two_rows_interrupted : ExperimentRunner.Env :=
  {| ExperimentRunner.input := ExperimentRunner.input two_rows;
     ExperimentRunner.dev :=
       fun k => if (k =? 8)%nat then Throws KeyboardInterrupt else Done;
     ExperimentRunner.rx := ExperimentRunner.rx two_rows |}.

Definition at_start : ExperimentRunner.World :=
  {| ExperimentRunner.self := fresh_runner;
     ExperimentRunner.tick := 0;
     ExperimentRunner.log := [] |}.

(** From slot [k0] of the run on, no device call raises a
    KeyboardInterrupt. *)
Definition quiet_from (env : ExperimentRunner.Env) (k0 : nat) : Prop :=
  forall k e,
    (k0 <= k)%nat -> ExperimentRunner.dev env k = Throws e ->
    is_Exception e = true.

(** A call of [connect] or [disconnect] on the motion system, with what
    the devices do during it. *)
Inductive motion_call : Type :=
| Connect (io : MotionSystem.connecting)
| Disconnect (io : MotionSystem.closing).

(** A sequence of such calls, as long as every call returns: [None]
    when one of them is left by an exception. *)
Fixpoint motion_calls (m : MotionSystem.t) (calls : list motion_call)
  : option MotionSystem.t :=
  match calls with
  | [] => Some m
  | Connect io :: rest =>
      match MotionSystem.connect m io with
      | (m', Returned _) => motion_calls m' rest
      | (_, Raised _) => None
      end
  | Disconnect io :: rest =>
      match MotionSystem.disconnect m io with
      | (m', Returned _) => motion_calls m' rest
      | (_, Raised _) => None
      end
  end.

(** The handles agree with the flag: both set when it is set, both
    [None] when it is not. *)
Definition handles_agree (m : MotionSystem.t) : Prop :=
  if MotionSystem._is_connected m
  then MotionSystem.stage_x m <> None /\ MotionSystem.stage_y m <> None
  else MotionSystem.stage_x m = None /\ MotionSystem.stage_y m = None.

(** Both stages open. *)
Definition opens_well : MotionSystem.connecting :=
  {| MotionSystem.open_x := Done; MotionSystem.open_y := Done;
     MotionSystem.undo_x := Done; MotionSystem.undo_y := Done |}.

(** Connect with Y failing (X is closed again), connect, disconnect with
    X raising on [close], connect. *)
Definition reconnecting : list motion_call :=
  [Connect {| MotionSystem.open_x := Done;
              MotionSystem.open_y := Throws DeviceError;
              MotionSystem.undo_x := Done;
              MotionSystem.undo_y := Done |};
   Connect opens_well;
   Disconnect closes_badly;
   Connect opens_well].

(** What a step that goes through adds to the log: the move to the
    first two numbers of the row, and the cure wait. *)
Definition visit (cure_time_s : Q) (row : list Q)
  : list ExperimentRunner.Event :=
  [ExperimentRunner.MoveTo (nth 0 row 0) (nth 1 row 0) (Returned true);
   ExperimentRunner.Cure cure_time_s (Returned tt)].

(** What the step that ends the loop early adds to the log, and the
    exception the loop is left with: the move returned [False], or the
    move or the cure wait was left by an exception. *)
Definition failed_visit (cure_time_s : Q) (row : list Q)
    (stop : list ExperimentRunner.Event) (e : exn) : Prop :=
  (stop = [ExperimentRunner.MoveTo (nth 0 row 0) (nth 1 row 0)
             (Returned false)]
   /\ e = RuntimeError)
  \/ stop = [ExperimentRunner.MoveTo (nth 0 row 0) (nth 1 row 0) (Raised e)]
  \/ stop = [ExperimentRunner.MoveTo (nth 0 row 0) (nth 1 row 0)
               (Returned true);
             ExperimentRunner.Cure cure_time_s (Raised e)].

(** The events of loading, connecting and moving: no UV command, no
    cure wait, no line of the cleanup. *)
Definition setup_event (ev : ExperimentRunner.Event) : Prop :=
  match ev with
  | ExperimentRunner.LoadCoordinates _
  | ExperimentRunner.MotionConnect _
  | ExperimentRunner.UvConnect _
  | ExperimentRunner.MotionDisconnect _
  | ExperimentRunner.UvDisconnect _
  | ExperimentRunner.MoveTo _ _ _ => True
  | _ => False
  end.

(** A computation leaves an attribute of the runner as it found it. *)
Definition keeps {A X} (attribute : ExperimentRunner.t -> X)
    (c : ExperimentRunner.M A) : Prop :=
  forall w,
    attribute (ExperimentRunner.self (fst (c w)))
    = attribute (ExperimentRunner.self w).

(** The progress events of the steps over [rows], numbered from [i]. *)
Fixpoint progress_events (env : ExperimentWorker.Env)
    (runner : ExperimentRunner.t) (estimated_total_seconds run_start_time : Q)
    (i : nat) (rows : list (list Q)) : list ExperimentWorker.ProgressEvent :=
  match rows with
  | [] => []
  | row :: rest =>
      ExperimentWorker.progress env runner estimated_total_seconds
        run_start_time i row
      :: progress_events env runner estimated_total_seconds run_start_time
           (S i) rest
  end.

(** Step [i] of the worker's loop goes through: no abort is pending at
    its top and its move returns [True]. *)
Definition step_goes_through (env : ExperimentWorker.Env)
    (runner : ExperimentRunner.t) (i : nat) (row : list Q) : Prop :=
  ExperimentWorker.abort_requested env i = false
  /\ MotionSystem.move_to_um (ExperimentRunner.motion_system runner)
       (nth 0 row 0) (nth 1 row 0) (ExperimentWorker.moving env i)
     = Returned true.

(** The stop button is pressed during step 1: the flag is set from the
    top of step 2 on. *)
Definition stopped_during_step_1 : ExperimentWorker.Env :=
  {| ExperimentWorker.abort_requested := fun i => (2 <=? i)%nat;
     ExperimentWorker.monotonic := fun i => inject_Z (2 * Z.of_nat i);
     ExperimentWorker.moving := fun _ => Done |}.

(** [self.labels[p]] for a pixel inside the image. *)
Definition label_at (labels : ImageTSPOptimizer.image)
    (p : ImageTSPOptimizer.point) : option nat :=
  if (fst p <? 0)%Z || (snd p <? 0)%Z then None
  else
    match nth_error labels (Z.to_nat (fst p)) with
    | Some row => nth_error row (Z.to_nat (snd p))
    | None => None
    end.

(** What [_solve_tsp_for_coords] is shown to do when it returns a
    path: it returns the points it was given, in some order. *)
Definition permuting
    (solve : list ImageTSPOptimizer.point
             -> option (list ImageTSPOptimizer.point)) : Prop :=
  forall coords path, solve coords = Some path -> Permutation coords path.

(** A solver that visits the pixels of every shape in reverse order. *)
Definition reversing (coords : list ImageTSPOptimizer.point)
  : option (list ImageTSPOptimizer.point) :=
  Some (rev coords).

(** The coordinate file as [np.loadtxt] reads it back: the line
    [f"{scaled_x:.3f},{scaled_y:.3f}\n"] of a record holds two numeric
    fields, [printed v] being the number that [v] printed with three
    decimals reads as. *)
Definition coordinate_lines (printed : Q -> Q) (file : list (Q * Q))
  : list (list ExperimentRunner.field) :=
  map (fun record =>
         [ExperimentRunner.Num (printed (fst record));
          ExperimentRunner.Num (printed (snd record))])
      file.

(** * Properties *)

(** ** UVcontroller: what a [True] from [uv_on] and [uv_off] means *)

Section UVcontrollerFacts.

Import UVcontroller.

Lemma truthy_true_iff {A} (l : list A) : truthy l = true <-> l <> [].
Proof.
  destruct l as [|a l]; simpl; split; intro H; congruence.
Qed.

Lemma send_command_disconnected (uv : t) (command : bytes) (io : exchange) :
  is_connected uv = false -> send_command uv command io = Returned [].
Proof.
  intro H. unfold send_command. now rewrite H.
Qed.

(** The answer of [send_command] does not depend on the command sent. *)
Lemma send_command_any_command (uv : t) (c1 c2 : bytes) (io : exchange) :
  send_command uv c1 io = send_command uv c2 io.
Proof. reflexivity. Qed.

Lemma command_true_iff (uv : t) (command : bytes) (io : exchange) :
  match send_command uv command io with
  | Returned response => Returned (truthy response)
  | Raised e => Raised e
  end = Returned true
  <-> exists response,
        send_command uv command io = Returned response /\ response <> [].
Proof.
  destruct (send_command uv command io) as [response|e]; split.
  - intro H. exists response. split; [reflexivity|].
    apply truthy_true_iff. congruence.
  - intros [r [Hr Hne]]. inversion Hr; subst r.
    apply truthy_true_iff in Hne. now rewrite Hne.
  - discriminate.
  - intros [r [Hr _]]. discriminate.
Qed.

End UVcontrollerFacts.

(** C9.  [uv_on] and [uv_off] return [True] exactly when [send_command]
    returned a non-empty response; any two non-empty answers of the
    device give the same [True], so the content of the answer is never
    looked at; and on a controller that is not connected [send_command]
    returns empty bytes without raising, so both commands return
    [False]. *)
Theorem uv_on_off_true_iff_some_response
    (uv : UVcontroller.t) (io : UVcontroller.exchange) :
  (UVcontroller.uv_on uv io = Returned true
   <-> exists response,
         UVcontroller.send_command uv UVcontroller.CMD_ON io
           = Returned response /\ response <> [])
  /\ (UVcontroller.uv_off uv io = Returned true
      <-> exists response,
            UVcontroller.send_command uv UVcontroller.CMD_OFF io
              = Returned response /\ response <> [])
  /\ (forall r1 r2 : bytes, r1 <> [] -> r2 <> [] ->
        UVcontroller.uv_on uv (UVcontroller.Answer r1)
          = UVcontroller.uv_on uv (UVcontroller.Answer r2)
        /\ UVcontroller.uv_off uv (UVcontroller.Answer r1)
             = UVcontroller.uv_off uv (UVcontroller.Answer r2))
  /\ (UVcontroller.is_connected uv = false ->
        (forall command,
            UVcontroller.send_command uv command io = Returned [])
        /\ UVcontroller.uv_on uv io = Returned false
        /\ UVcontroller.uv_off uv io = Returned false).
Proof.
  split; [apply command_true_iff|].
  split; [apply command_true_iff|].
  split.
  - intros r1 r2 H1 H2.
    unfold UVcontroller.uv_on, UVcontroller.uv_off, UVcontroller.send_command.
    destruct (negb (UVcontroller.is_connected uv)); [now split|].
    apply truthy_true_iff in H1, H2. now rewrite H1, H2.
  - intro H. split; [|split].
    + intro command. now apply send_command_disconnected.
    + unfold UVcontroller.uv_on.
      now rewrite send_command_disconnected.
    + unfold UVcontroller.uv_off.
      now rewrite send_command_disconnected.
Qed.

(** A connected controller whose lamp answers with one zero byte, and a
    controller that was never connected. *)
Lemma uv_on_off_true_iff_some_response_witness :
  UVcontroller.uv_on
    {| UVcontroller.serial := Some {| UVcontroller.is_open := true |};
       UVcontroller._is_connected := true |}
    (UVcontroller.Answer [x00]) = Returned true
  /\ UVcontroller.uv_off UVcontroller.__init__ (UVcontroller.Answer [x01])
     = Returned false.
Proof.
  split.
  - apply (proj1 (uv_on_off_true_iff_some_response _ _)).
    exists [x00]. split; [reflexivity | discriminate].
  - apply (proj2 (proj2 (proj2
             (uv_on_off_true_iff_some_response UVcontroller.__init__
                (UVcontroller.Answer [x01]))))).
    reflexivity.
Defined.

(** ** MotionSystem: the state [disconnect] and a failed [connect] leave *)

Section MotionSystemFacts.

Import MotionSystem.

Lemma is_connected_needs_flag (m : t) :
  _is_connected m = false -> is_connected m = false.
Proof. intro H. unfold is_connected. now rewrite H. Qed.

Lemma disconnect_not_connected (m : t) (io : closing) :
  is_connected (fst (disconnect m io)) = false.
Proof.
  unfold disconnect.
  destruct (_is_connected m) eqn:E; simpl.
  - reflexivity.
  - now apply is_connected_needs_flag.
Qed.

Lemma disconnect_clears (m : t) (io : closing) :
  _is_connected m = true ->
  fst (disconnect m io) = with_state m None None false.
Proof. intro H. unfold disconnect. now rewrite H. Qed.

Lemma disconnect_idle (m : t) (io : closing) :
  _is_connected m = false -> disconnect m io = (m, Returned tt).
Proof. intro H. unfold disconnect. now rewrite H. Qed.

Lemma connect_failed_false (m m' : t) (io : connecting) (e : exn) :
  connect_failed m io e = (m', Returned false) ->
  m' = with_state m None None false.
Proof.
  unfold connect_failed.
  destruct (is_Exception e); [|discriminate].
  destruct (close_if (stage_x m) (undo_x io)); [|discriminate].
  destruct (close_if (stage_y m) (undo_y io)); [|discriminate].
  now inversion 1.
Qed.

Lemma connect_false_clears (m m' : t) (io : connecting) :
  connect m io = (m', Returned false) ->
  stage_x m' = None /\ stage_y m' = None /\ _is_connected m' = false.
Proof.
  unfold connect.
  destruct (_is_connected m); [discriminate|].
  destruct (open_x io).
  - destruct (open_y io); [discriminate|].
    intro H. apply connect_failed_false in H. now subst m'.
  - intro H. apply connect_failed_false in H. now subst m'.
Qed.

End MotionSystemFacts.

(** C10, as stated, fails: when [connect] is left by an exception (X
    opened, Y failed, and the handler's [close] of X raised), the flag is
    unset and the X handle is kept; [disconnect] then returns at its
    first test and the handle is still there. *)
Lemma disconnect_keeps_handle_when_flag_unset :
  let m := fst (MotionSystem.connect idle_stages half_open) in
  MotionSystem.__init__ 27269534 27269887 config.DIST_PER_STEP
    = Returned idle_stages
  /\ snd (MotionSystem.connect idle_stages half_open) = Raised DeviceError
  /\ snd (MotionSystem.disconnect m closes_well) = Returned tt
  /\ MotionSystem.stage_x (fst (MotionSystem.disconnect m closes_well))
     = Some {| MotionSystem.opened_on := 27269534 |}.
Proof. repeat split. Qed.

(** C10, amended.  After [disconnect], [is_connected] is false; if the
    connected flag was set when [disconnect] was called, both stage
    handles are [None] and the flag is unset, whatever the two [close]
    calls did; if the flag was not set, [disconnect] returns at once and
    leaves the object as it was.  Whenever [connect] returns [False],
    both handles are [None] and the flag is unset, so [is_connected] is
    false. *)
Theorem disconnect_and_failed_connect_leave_disconnected
    (m : MotionSystem.t) :
  (forall io,
      MotionSystem.is_connected (fst (MotionSystem.disconnect m io)) = false)
  /\ (forall io,
        MotionSystem._is_connected m = true ->
        let m' := fst (MotionSystem.disconnect m io) in
        MotionSystem.stage_x m' = None
        /\ MotionSystem.stage_y m' = None
        /\ MotionSystem._is_connected m' = false)
  /\ (forall io,
        MotionSystem._is_connected m = false ->
        MotionSystem.disconnect m io = (m, Returned tt))
  /\ (forall io m',
        MotionSystem.connect m io = (m', Returned false) ->
        MotionSystem.stage_x m' = None
        /\ MotionSystem.stage_y m' = None
        /\ MotionSystem._is_connected m' = false
        /\ MotionSystem.is_connected m' = false).
Proof.
  split; [intro io; apply disconnect_not_connected|].
  split.
  - intros io H. cbv zeta. rewrite (disconnect_clears m io H). now simpl.
  - split; [intros io H; now apply disconnect_idle|].
    intros io m' H. destruct (connect_false_clears _ _ _ H) as (Hx & Hy & Hf).
    repeat split; try assumption.
    now apply is_connected_needs_flag.
Qed.

(** Connected stages whose X stage raises on [close], and a [connect]
    whose X stage cannot be opened. *)
Lemma disconnect_and_failed_connect_leave_disconnected_witness :
  (let m' :=
     fst (MotionSystem.disconnect
            (MotionSystem.with_state idle_stages
               (Some {| MotionSystem.opened_on := 27269534 |})
               (Some {| MotionSystem.opened_on := 27269887 |}) true)
            closes_badly) in
   MotionSystem.stage_x m' = None
   /\ MotionSystem.stage_y m' = None
   /\ MotionSystem._is_connected m' = false)
  /\ MotionSystem.is_connected idle_stages = false.
Proof.
  split.
  - apply (proj1 (proj2
      (disconnect_and_failed_connect_leave_disconnected
         (MotionSystem.with_state idle_stages
            (Some {| MotionSystem.opened_on := 27269534 |})
            (Some {| MotionSystem.opened_on := 27269887 |}) true)))).
    reflexivity.
  - apply (proj2 (proj2 (proj2
      (disconnect_and_failed_connect_leave_disconnected idle_stages)))
      {| MotionSystem.open_x := Throws DeviceError;
         MotionSystem.open_y := Done;
         MotionSystem.undo_x := Done;
         MotionSystem.undo_y := Done |} idle_stages).
    reflexivity.
Defined.

(** ** ExperimentRunner: the estimate of the run's duration *)

(** C7.  With [total_steps = n > 0] the estimate is
    [n * (cure_time + move_overhead) + 2 * uv_command_overhead]; the two
    overheads of a runner are the constants of [config]; and with three
    steps, two seconds of cure and both overheads zero it is six seconds.
    Python's floats are read as exact rationals. *)
Theorem estimate_duration_formula (r : ExperimentRunner.t) :
  (0 < ExperimentRunner.total_steps r)%Z ->
  ExperimentRunner.estimate_duration r
    == inject_Z (ExperimentRunner.total_steps r)
       * (ExperimentRunner.cure_time_s r
          + ExperimentRunner.move_process_overhead_s r)
       + 2 * ExperimentRunner.uv_command_overhead_s r
  /\ (forall motion uv cure r0,
        ExperimentRunner.__init__ motion uv cure = Returned r0 ->
        ExperimentRunner.uv_command_overhead_s r0
          = config.UV_COMMAND_OVERHEAD_S
        /\ ExperimentRunner.move_process_overhead_s r0
           = config.MOVE_PROCESS_OVERHEAD_S)
  /\ (ExperimentRunner.total_steps r = 3%Z ->
      ExperimentRunner.cure_time_s r == 2 ->
      ExperimentRunner.move_process_overhead_s r == 0 ->
      ExperimentRunner.uv_command_overhead_s r == 0 ->
      ExperimentRunner.estimate_duration r == 6).
Proof.
  intro Hn.
  assert (E : ExperimentRunner.estimate_duration r
              = inject_Z (ExperimentRunner.total_steps r)
                * (ExperimentRunner.cure_time_s r
                   + ExperimentRunner.move_process_overhead_s r)
                + ExperimentRunner.uv_command_overhead_s r
                + ExperimentRunner.uv_command_overhead_s r).
  { unfold ExperimentRunner.estimate_duration.
    destruct (Z.leb_spec (ExperimentRunner.total_steps r) 0); [lia|reflexivity]. }
  split; [rewrite E; ring|].
  split.
  - intros motion uv cure r0. unfold ExperimentRunner.__init__.
    destruct (Qle_bool cure 0); [discriminate|].
    intro H. inversion H. now simpl.
  - intros H3 Hc Hm Hu. rewrite E, H3, Hc, Hm, Hu. reflexivity.
Qed.

Lemma estimate_duration_formula_witness :
  ExperimentRunner.estimate_duration three_steps_no_overhead == 6.
Proof.
  apply (proj2 (proj2 (estimate_duration_formula three_steps_no_overhead
                         ltac:(reflexivity))));
    reflexivity.
Defined.

(** ** ImageTSPOptimizer: saving the path *)

Section SavingFacts.

Import ImageTSPOptimizer.

Lemma write_points_ok (io : writing) (step_size : Q) (points : list point) :
  forall k,
    snd (write_points io step_size k points) = true
    <-> (forall j, (j < length points)%nat -> write_ok io (k + j) = true).
Proof.
  induction points as [|p rest IH]; intro k; simpl.
  - split; [intros _ j Hj; lia | reflexivity].
  - destruct (write_ok io k) eqn:Ek.
    + specialize (IH (S k)).
      destruct (write_points io step_size (S k) rest) as [written ok].
      simpl in *. rewrite IH. split.
      * intros H [|j] Hj.
        -- now rewrite Nat.add_0_r.
        -- replace (k + S j)%nat with (S (k + j)) by lia.
           apply H. lia.
      * intros H j Hj.
        replace (S (k + j)) with (k + S j)%nat by lia.
        apply H. lia.
    + simpl. split; [discriminate|].
      intro H. specialize (H 0%nat ltac:(lia)).
      rewrite Nat.add_0_r in H. congruence.
Qed.

Lemma write_points_all (io : writing) (step_size : Q) (points : list point) :
  forall k,
    snd (write_points io step_size k points) = true ->
    fst (write_points io step_size k points) = map (scaled step_size) points.
Proof.
  induction points as [|p rest IH]; intro k; simpl; [reflexivity|].
  destruct (write_ok io k); [|discriminate].
  specialize (IH (S k)).
  destruct (write_points io step_size (S k) rest) as [written ok].
  simpl in *. intro H. now rewrite IH.
Qed.

End SavingFacts.

(** C4, as stated, fails: for the empty path the method returns [False]
    on a file system where nothing can fail, and the file is not even
    opened. *)
Lemma save_empty_path_reports_failure :
  ImageTSPOptimizer.save_optimized_path [] config.PATH_GEN_STEP_SIZE writable
  = (false, ImageTSPOptimizer.NotOpened).
Proof. reflexivity. Qed.

(** C4, amended.  [save_optimized_path] returns [True] exactly when the
    path is not empty, the file could be opened, every write returned
    and the flush made when the file is closed went through; the file
    then holds one scaled record per point, in path order.  For a path
    that is not empty it returns [False] only on such an I/O error.  For
    the empty path it returns [False] without opening the file, whatever
    the file system would have done. *)
Theorem save_optimized_path_success
    (all_paths_pixels : list ImageTSPOptimizer.point) (step_size : Q)
    (io : ImageTSPOptimizer.writing) :
  (fst (ImageTSPOptimizer.save_optimized_path all_paths_pixels step_size io)
     = true
   <-> all_paths_pixels <> []
       /\ ImageTSPOptimizer.open_ok io = true
       /\ (forall k, (k < length all_paths_pixels)%nat ->
             ImageTSPOptimizer.write_ok io k = true)
       /\ ImageTSPOptimizer.close_ok io = true)
  /\ (fst (ImageTSPOptimizer.save_optimized_path all_paths_pixels step_size io)
        = true ->
      snd (ImageTSPOptimizer.save_optimized_path all_paths_pixels step_size io)
        = ImageTSPOptimizer.Complete
            (map (ImageTSPOptimizer.scaled step_size) all_paths_pixels))
  /\ (all_paths_pixels = [] ->
      ImageTSPOptimizer.save_optimized_path all_paths_pixels step_size io
        = (false, ImageTSPOptimizer.NotOpened)).
Proof.
  unfold ImageTSPOptimizer.save_optimized_path.
  destruct all_paths_pixels as [|p rest].
  - simpl. split; [|split]; try discriminate; try reflexivity.
    split; [discriminate|]. intros [H _]. now elim H.
  - cbn [truthy negb].
    destruct (ImageTSPOptimizer.open_ok io) eqn:Eo; cbn [negb].
    + pose proof (write_points_ok io step_size (p :: rest) 0) as Hok.
      pose proof (write_points_all io step_size (p :: rest) 0) as Hall.
      destruct (ImageTSPOptimizer.write_points io step_size 0 (p :: rest))
        as [written ok].
      cbn [fst snd] in *.
      destruct ok; cbn [andb].
      * destruct (ImageTSPOptimizer.close_ok io); cbn [fst snd].
        -- split; [|split].
           ++ split; [|reflexivity]. intros _.
              split; [discriminate|]. split; [reflexivity|].
              split; [now apply Hok | reflexivity].
           ++ intros _. now rewrite Hall.
           ++ discriminate.
        -- split; [|split]; try discriminate.
           split; [discriminate|]. intros (_ & _ & _ & H). discriminate.
      * cbn [fst snd]. split; [|split]; try discriminate.
        split; [discriminate|]. intros (_ & _ & H & _).
        apply Hok in H. discriminate.
    + split; [|split]; cbn [fst snd]; try discriminate.
      split; [discriminate|]. intros (_ & H & _). discriminate.
Qed.

(** One pixel at row 2, column 3, with the step size of [config]. *)
Lemma save_optimized_path_success_witness :
  snd (ImageTSPOptimizer.save_optimized_path
         [(2, 3)%Z] config.PATH_GEN_STEP_SIZE writable)
  = ImageTSPOptimizer.Complete
      [ImageTSPOptimizer.scaled config.PATH_GEN_STEP_SIZE (2, 3)%Z].
Proof.
  apply (proj1 (proj2
    (save_optimized_path_success [(2, 3)%Z] config.PATH_GEN_STEP_SIZE
       writable))).
  reflexivity.
Defined.

(** ** ExperimentRunner: loading the coordinate file *)

Section LoadingFacts.

Import ExperimentRunner.

Lemma numbers_of_numbers (row : list Q) : numbers (map Num row) = Some row.
Proof.
  induction row as [|v row IH]; simpl; [reflexivity|]. now rewrite IH.
Qed.

Lemma table_of_numbers (rows : list (list Q)) :
  Forall (fun row => row <> []) rows ->
  table (map (map Num) rows) = Some rows.
Proof.
  induction 1 as [|row rows Hrow _ IH]; simpl; [reflexivity|].
  destruct row as [|v row]; [now elim Hrow|].
  cbn [map]. change (Num v :: map Num row) with (map Num (v :: row)).
  now rewrite numbers_of_numbers, IH.
Qed.

Lemma same_length_forallb (k : nat) (rows : list (list Q)) :
  Forall (fun row => length row = k) rows ->
  forallb (fun r' => (length r' =? k)%nat) rows = true.
Proof.
  induction 1 as [|row rows Hrow _ IH]; simpl; [reflexivity|].
  rewrite IH, Hrow, Nat.eqb_refl. reflexivity.
Qed.

(** A table of at least two columns survives [squeeze] and the reshape of
    a single row as a 2-D array with the same rows. *)
Lemma reshape_squeeze_table (row : list Q) (rows : list (list Q)) :
  (2 <= length row)%nat ->
  reshape_single_row (squeeze (row :: rows) (length row))
  = Array2 (row :: rows) (length row).
Proof.
  intro Hk. unfold squeeze.
  destruct rows as [|row' rows].
  - destruct row as [|v [|v' row]]; simpl in Hk; try lia.
    unfold reshape_single_row.
    destruct (Nat.leb_spec 2 (length (v :: v' :: row))) as [_|H];
      [reflexivity | simpl in H; lia].
  - destruct (Nat.eqb_spec (length row) 1) as [H|_]; [lia|].
    destruct row as [|v [|v' row]]; simpl in Hk; try lia; reflexivity.
Qed.

Lemma load_table (r : t) (rows : list (list Q)) (columns : nat) :
  rows <> [] ->
  (2 <= columns)%nat ->
  Forall (fun row => length row = columns) rows ->
  load_coordinates r (Lines (map (map Num) rows))
  = (with_coordinates r (Some (Array2 rows columns))
       (Z.of_nat (length rows)),
     Returned true).
Proof.
  intros Hne Hk Hall.
  destruct rows as [|row rows]; [now elim Hne|].
  unfold load_coordinates, loadtxt.
  rewrite table_of_numbers.
  - inversion Hall as [|? ? Hrow Hrows]; subst.
    rewrite (same_length_forallb _ _ Hrows).
    rewrite reshape_squeeze_table by exact Hk.
    destruct (Nat.ltb_spec (length row) 2) as [H|_]; [lia|].
    destruct (Z.eqb_spec (Z.of_nat (length (row :: rows))) 0) as [H|_];
      [simpl in H; lia | reflexivity].
  - eapply Forall_impl; [|exact Hall].
    intros a Ha Hnil. subst a. simpl in Ha. lia.
Qed.

Lemma load_unparsed (r : t) (content : list (list field)) :
  loadtxt content = Raised ValueError ->
  load_coordinates r (Lines content)
  = (with_coordinates r None 0, Returned false).
Proof.
  intro H. unfold load_coordinates. now rewrite H.
Qed.

Lemma numbers_junk (l : list field) : In Junk l -> numbers l = None.
Proof.
  induction l as [|f l IH]; intro H; [now elim H|].
  destruct f as [v|]; [|reflexivity].
  destruct H as [H|H]; [discriminate|].
  simpl. now rewrite (IH H).
Qed.

Lemma table_junk (content : list (list field)) (l : list field) :
  In l content -> In Junk l -> table content = None.
Proof.
  intros Hl Hj. induction content as [|l' content IH]; [now elim Hl|].
  destruct Hl as [->|Hl].
  - destruct l as [|f l]; [now elim Hj|].
    cbn [table]. now rewrite (numbers_junk (f :: l) Hj).
  - specialize (IH Hl). destruct l' as [|f l']; [exact IH|].
    cbn [table]. rewrite IH. now destruct (numbers (f :: l')).
Qed.

Lemma loadtxt_junk (content : list (list field)) (l : list field) :
  In l content -> In Junk l -> loadtxt content = Raised ValueError.
Proof.
  intros Hl Hj. unfold loadtxt. now rewrite (table_junk content l Hl Hj).
Qed.

Lemma other_length_forallb (k : nat) (rows : list (list Q)) (row : list Q) :
  In row rows -> length row <> k ->
  forallb (fun r' => (length r' =? k)%nat) rows = false.
Proof.
  intros Hin Hne. induction rows as [|r rows IH]; [now elim Hin|].
  simpl. destruct Hin as [->|Hin].
  - destruct (Nat.eqb_spec (length row) k); [contradiction|reflexivity].
  - rewrite (IH Hin). apply andb_false_r.
Qed.

Lemma loadtxt_ragged (row row' : list Q) (rows : list (list Q)) :
  Forall (fun r => r <> []) (row :: rows) ->
  In row' rows -> length row' <> length row ->
  loadtxt (map (map Num) (row :: rows)) = Raised ValueError.
Proof.
  intros Hne Hin Hlen. unfold loadtxt.
  rewrite (table_of_numbers (row :: rows) Hne).
  now rewrite (other_length_forallb (length row) rows row' Hin Hlen).
Qed.

End LoadingFacts.

(** C8, as stated, fails: every line of this file has at least two
    comma-separated fields, all of them numbers, and it is not loaded,
    since its lines do not have the same number of fields. *)
Lemma load_coordinates_rejects_ragged_rows :
  forallb (fun l => (2 <=? length l)%nat) ragged_file = true
  /\ ExperimentRunner.load_coordinates fresh_runner
       (ExperimentRunner.Lines ragged_file)
     = (fresh_runner, Returned false).
Proof. split; reflexivity. Qed.

(** The file ["1\n2\n3\n"] has one column.  It is read as a 1-D array of
    three numbers, which the single-row reshape turns into one row, and
    it loads as a single step at (1, 2). *)
Lemma load_coordinates_takes_one_column_as_one_row :
  ExperimentRunner.load_coordinates fresh_runner
    (ExperimentRunner.Lines
       [[ExperimentRunner.Num 1]; [ExperimentRunner.Num 2];
        [ExperimentRunner.Num 3]])
  = (ExperimentRunner.with_coordinates fresh_runner
       (Some (ExperimentRunner.Array2 [[1; 2; 3]] 3)) 1,
     Returned true).
Proof. reflexivity. Qed.

(** C8, amended.  [load_coordinates] returns [False], with nothing
    loaded, when the file is missing, when it has no data row, when it
    holds a single number, when one of its fields is not a number, and
    when one of its lines has another number of fields than the first.
    For every file of [n >= 1] lines that all have the same number
    [k >= 2] of numeric fields it returns [True] with [total_steps = n]
    and the [n] rows as coordinates, a single line included. *)
Theorem load_coordinates_outcomes (r : ExperimentRunner.t) :
  ExperimentRunner.load_coordinates r ExperimentRunner.NoFile
    = (r, Returned false)
  /\ ExperimentRunner.load_coordinates r (ExperimentRunner.Lines [])
     = (ExperimentRunner.with_coordinates r None 0, Returned false)
  /\ (forall v,
        ExperimentRunner.load_coordinates r
          (ExperimentRunner.Lines [[ExperimentRunner.Num v]])
        = (ExperimentRunner.with_coordinates r None 0, Returned false))
  /\ (forall content l,
        In l content -> In ExperimentRunner.Junk l ->
        ExperimentRunner.load_coordinates r (ExperimentRunner.Lines content)
        = (ExperimentRunner.with_coordinates r None 0, Returned false))
  /\ (forall (row row' : list Q) (rows : list (list Q)),
        Forall (fun l => l <> []) (row :: rows) ->
        In row' rows -> length row' <> length row ->
        ExperimentRunner.load_coordinates r
          (ExperimentRunner.Lines
             (map (map ExperimentRunner.Num) (row :: rows)))
        = (ExperimentRunner.with_coordinates r None 0, Returned false))
  /\ (forall (rows : list (list Q)) (k : nat),
        rows <> [] ->
        (2 <= k)%nat ->
        Forall (fun row => length row = k) rows ->
        let loaded :=
          ExperimentRunner.load_coordinates r
            (ExperimentRunner.Lines (map (map ExperimentRunner.Num) rows)) in
        snd loaded = Returned true
        /\ ExperimentRunner.total_steps (fst loaded)
           = Z.of_nat (length rows)
        /\ ExperimentRunner.coordinates (fst loaded)
           = Some (ExperimentRunner.Array2 rows k)).
Proof.
  split; [reflexivity|].
  split; [reflexivity|].
  split; [reflexivity|].
  split.
  { intros content l Hl Hj. apply load_unparsed.
    now apply (loadtxt_junk content l). }
  split.
  { intros row row' rows Hne Hin Hlen. apply load_unparsed.
    now apply (loadtxt_ragged row row' rows). }
  intros rows k Hne Hk Hall. cbv zeta.
  rewrite (load_table r rows k Hne Hk Hall). now simpl.
Qed.

(** The single line ["150.000,100.000"], and a file with a field that is
    no number. *)
Lemma load_coordinates_outcomes_witness :
  (let loaded :=
     ExperimentRunner.load_coordinates fresh_runner
       (ExperimentRunner.Lines
          (map (map ExperimentRunner.Num) [[150; 100]])) in
   snd loaded = Returned true
   /\ ExperimentRunner.total_steps (fst loaded) = 1%Z
   /\ ExperimentRunner.coordinates (fst loaded)
      = Some (ExperimentRunner.Array2 [[150; 100]] 2))
  /\ ExperimentRunner.load_coordinates fresh_runner
       (ExperimentRunner.Lines
          [[ExperimentRunner.Num 1; ExperimentRunner.Junk]])
     = (fresh_runner, Returned false).
Proof.
  pose proof (load_coordinates_outcomes fresh_runner)
    as (_ & _ & _ & Hjunk & _ & Htable).
  split.
  - apply (Htable [[150; 100]] 2%nat).
    + discriminate.
    + lia.
    + repeat constructor.
  - apply (Hjunk _ [ExperimentRunner.Num 1; ExperimentRunner.Junk]).
    + now left.
    + right. now left.
Defined.

(** ** ImageTSPOptimizer: one shape without a solution *)

Section ShapesFacts.

Import ImageTSPOptimizer.

Variable solve : list point -> option (list point).
Variable labels : image.

Lemma process_labels_appends (label_ids : list nat) :
  forall all_paths_pixels,
    process_labels solve labels label_ids all_paths_pixels
    = all_paths_pixels ++ flat_map (solved_order solve labels) label_ids.
Proof.
  induction label_ids as [|label_id rest IH]; intro acc; simpl.
  - now rewrite app_nil_r.
  - unfold solved_order at 1.
    destruct (shape_coords labels label_id) as [|p shape] eqn:Es; simpl.
    + apply IH.
    + destruct (solve (p :: shape)) as [[|q path]|]; simpl; rewrite IH.
      * reflexivity.
      * now rewrite <- app_assoc.
      * reflexivity.
Qed.

Lemma process_shapes_all (m : nat) :
  process_shapes solve (Some labels) (S m)
  = flat_map (solved_order solve labels) (seq 1 m).
Proof.
  unfold process_shapes.
  destruct m as [|m]; [reflexivity|].
  cbn [Nat.leb]. rewrite process_labels_appends.
  replace (S (S m) - 1)%nat with (S m) by lia. reflexivity.
Qed.

Lemma solved_order_none (label_id : nat) :
  solve (shape_coords labels label_id) = None ->
  solved_order solve labels label_id = [].
Proof.
  intro H. unfold solved_order.
  destruct (shape_coords labels label_id); [reflexivity|]. now rewrite H.
Qed.

End ShapesFacts.

(** C3.  When the segmentation has the labels 1..m and the solver
    returns no solution for shape j, [process_shapes] returns (it is a
    total function: nothing is raised) the solved orders of the shapes
    1..j-1 followed by those of the shapes j+1..m, each whole and in
    ascending label order; the order of a shape with pixels for which the
    solver returned a path is that path. *)
Theorem process_shapes_skips_unsolved
    (solve : list ImageTSPOptimizer.point
             -> option (list ImageTSPOptimizer.point))
    (labels : ImageTSPOptimizer.image) (m j : nat) :
  (1 <= j <= m)%nat ->
  solve (ImageTSPOptimizer.shape_coords labels j) = None ->
  ImageTSPOptimizer.process_shapes solve (Some labels) (S m)
  = flat_map (solved_order solve labels) (seq 1 (j - 1))
    ++ flat_map (solved_order solve labels) (seq (S j) (m - j))
  /\ (forall l p shape path,
        ImageTSPOptimizer.shape_coords labels l = p :: shape ->
        solve (p :: shape) = Some path ->
        solved_order solve labels l = path).
Proof.
  intros Hj Hnone. split.
  - rewrite process_shapes_all.
    replace m with ((j - 1) + (1 + (m - j)))%nat at 1 by lia.
    rewrite seq_app, flat_map_app.
    replace (1 + (j - 1))%nat with j by lia.
    rewrite seq_app. cbn [seq]. rewrite flat_map_app.
    cbn [flat_map]. rewrite (solved_order_none _ _ _ Hnone).
    replace (j + 1)%nat with (S j) by lia.
    reflexivity.
  - intros l p shape path Hs Hp. unfold solved_order.
    now rewrite Hs, Hp.
Qed.

Lemma process_shapes_skips_unsolved_witness :
  ImageTSPOptimizer.process_shapes gives_up_on_column_2 (Some three_shapes) 4
  = [(1, 0); (0, 0); (1, 4); (0, 4)]%Z.
Proof.
  refine (eq_trans
    (proj1 (process_shapes_skips_unsolved gives_up_on_column_2 three_shapes
              3 2 _ _)) _).
  - lia.
  - reflexivity.
  - reflexivity.
Defined.

(** ** ImageTSPOptimizer: the objective of the routing model *)

Section ObjectiveFacts.

Import ImageTSPOptimizer.

Local Open Scope Z_scope.

(** [rounded_sqrt s] is the integer nearest to the square root of [s]. *)
Lemma rounded_sqrt_nearest (s : Z) :
  0 <= s ->
  let d := rounded_sqrt s in
  0 <= d /\ 4 * s < (2 * d + 1) ^ 2 /\ (0 < d -> (2 * d - 1) ^ 2 <= 4 * s).
Proof.
  intro Hs. cbv zeta. unfold rounded_sqrt.
  pose proof (Z.sqrt_spec (4 * s) ltac:(lia)) as [Hlo Hhi].
  pose proof (Z.sqrt_nonneg (4 * s)) as Hr.
  set (r := Z.sqrt (4 * s)) in *.
  pose proof (Z.div_mod (r + 1) 2 ltac:(lia)) as Hdm.
  pose proof (Z.mod_pos_bound (r + 1) 2 ltac:(lia)) as Hm.
  set (d := (r + 1) / 2) in *.
  split; [lia|]. split; nia.
Qed.

Lemma sq_euclidean_sym (p q : point) : sq_euclidean p q = sq_euclidean q p.
Proof. unfold sq_euclidean. ring. Qed.

Lemma sq_euclidean_self (p : point) : sq_euclidean p p = 0.
Proof. unfold sq_euclidean. ring. Qed.

Lemma int_distances_sym (coords : list point) (i j : nat) :
  int_distances coords i j = int_distances coords j i.
Proof. unfold int_distances. now rewrite sq_euclidean_sym. Qed.

Lemma int_distances_self (coords : list point) (i : nat) :
  int_distances coords i i = 0.
Proof. unfold int_distances. now rewrite sq_euclidean_self. Qed.

Lemma IndexToNode_node (num_coords index : nat) :
  (index < num_coords)%nat -> IndexToNode num_coords index = index.
Proof.
  intro H. unfold IndexToNode.
  destruct (Nat.ltb_spec index num_coords); [reflexivity|lia].
Qed.

Lemma IndexToNode_End (num_coords : nat) :
  IndexToNode num_coords (End num_coords) = 0%nat.
Proof. unfold IndexToNode, End. now rewrite Nat.ltb_irrefl. Qed.

Lemma distance_callback_nodes (coords : list point) (i j : nat) :
  (i < length coords)%nat -> (j < length coords)%nat ->
  distance_callback coords i j = int_distances coords i j.
Proof.
  intros Hi Hj. unfold distance_callback.
  rewrite !IndexToNode_node by assumption.
  destruct (Nat.ltb_spec i (length coords)); [|lia].
  destruct (Nat.ltb_spec j (length coords)); [|lia].
  reflexivity.
Qed.

(** The arc into the vehicle's end is priced as the way back to node 0. *)
Lemma distance_callback_End (coords : list point) (i : nat) :
  (i < length coords)%nat ->
  distance_callback coords i (End (length coords)) = int_distances coords i 0.
Proof.
  intro Hi. unfold distance_callback.
  rewrite IndexToNode_End, IndexToNode_node by assumption.
  destruct (Nat.ltb_spec i (length coords)); [|lia].
  destruct (Nat.ltb_spec 0 (length coords)); [|lia].
  reflexivity.
Qed.

Lemma objective_closes_the_tour (coords : list point) (visited : list nat) :
  visited <> [] ->
  Forall (fun i => (i < length coords)%nat) visited ->
  objective coords visited
  = open_path_cost coords visited
    + int_distances coords (last visited 0%nat) 0.
Proof.
  unfold objective, open_path_cost.
  induction visited as [|i rest IH]; intros Hne Hall; [now elim Hne|].
  inversion Hall as [|? ? Hi Hrest]; subst.
  destruct rest as [|i' rest].
  - simpl. rewrite distance_callback_End by assumption. ring.
  - inversion Hrest as [|? ? Hi' _]; subst.
    change (arcs_cost (distance_callback coords)
              ((i :: i' :: rest) ++ [End (length coords)]))
      with (distance_callback coords i i'
            + arcs_cost (distance_callback coords)
                ((i' :: rest) ++ [End (length coords)])).
    change (arcs_cost (int_distances coords) (i :: i' :: rest))
      with (int_distances coords i i'
            + arcs_cost (int_distances coords) (i' :: rest)).
    rewrite IH by (assumption || discriminate).
    rewrite distance_callback_nodes by assumption.
    change (last (i :: i' :: rest) 0%nat) with (last (i' :: rest) 0%nat).
    ring.
Qed.

End ObjectiveFacts.

(** C6, as stated, fails: for two pixels at distance 3 the route that
    starts at the first and visits the second costs 6 in the routing
    model, the way back to the start included, where the open path
    costs 3. *)
Lemma objective_counts_the_way_back :
  ImageTSPOptimizer.objective two_pixels [0; 1]%nat = 6%Z
  /\ ImageTSPOptimizer.open_path_cost two_pixels [0; 1]%nat = 3%Z
  /\ ImageTSPOptimizer.distance_callback two_pixels 1
       (ImageTSPOptimizer.End 2) = 3%Z.
Proof. repeat split. Qed.

(** ** ImageTSPOptimizer: the solved order is a permutation *)

Section SolverFacts.

Import ImageTSPOptimizer.

Lemma route_indices_follows (num_coords : nat) (next : nat -> nat)
    (order : list nat) :
  Forall (fun i => (i < num_coords)%nat) order ->
  forall fuel index,
    (length order < fuel)%nat ->
    follows next index order (End num_coords) ->
    route_indices fuel num_coords next index = Some order.
Proof.
  induction 1 as [|i rest Hi _ IH]; intros fuel index Hfuel Hf;
    destruct fuel as [|fuel]; simpl in Hfuel; try lia; simpl in *.
  - subst index. unfold IsEnd, End. now rewrite Nat.leb_refl.
  - destruct Hf as [-> Hf].
    unfold IsEnd. destruct (Nat.leb_spec num_coords i) as [H|_]; [lia|].
    rewrite IndexToNode_node by assumption.
    rewrite (IH fuel (next i)) by (lia || assumption).
    reflexivity.
Qed.

Lemma nth_all_from (coords : list point) :
  forall prefix,
    map (fun i => nth i (prefix ++ coords) (0, 0)%Z)
        (seq (length prefix) (length coords))
    = coords.
Proof.
  induction coords as [|p coords IH]; intro prefix; simpl; [reflexivity|].
  rewrite app_nth2, Nat.sub_diag by lia. simpl. f_equal.
  specialize (IH (prefix ++ [p])).
  rewrite <- app_assoc, length_app in IH. simpl in IH.
  now rewrite Nat.add_1_r in IH.
Qed.

Lemma take_rows_all (coords : list point) :
  take_rows coords (seq 0 (length coords)) = coords.
Proof. exact (nth_all_from coords []). Qed.

Lemma take_rows_permutation (coords : list point) (order : list nat) :
  Permutation order (seq 0 (length coords)) ->
  Permutation (take_rows coords order) coords.
Proof.
  intro H. rewrite <- (take_rows_all coords) at 2.
  unfold take_rows. now apply Permutation_map.
Qed.

Lemma permutation_of_seq_bounded (n : nat) (order : list nat) :
  Permutation order (seq 0 n) -> Forall (fun i => (i < n)%nat) order.
Proof.
  intro H. apply Forall_forall. intros i Hi.
  apply (Permutation_in _ H) in Hi. apply in_seq in Hi. lia.
Qed.

End SolverFacts.

(** *** From the routing constraints to a route through every node *)

Section RoutingFacts.

Import ImageTSPOptimizer.

Variable num_coords : nat.
Variable next : nat -> nat.

Hypothesis successor_range :
  forall i, (i < num_coords)%nat -> (1 <= next i <= num_coords)%nat.
Hypothesis successor_injective :
  forall i j, (i < num_coords)%nat -> (j < num_coords)%nat ->
    next i = next j -> i = j.
Hypothesis no_cycle :
  forall i, (i < num_coords)%nat -> exists k, after next k i = End num_coords.

Let node (i : nat) : Prop := (i < num_coords)%nat.

(** The walk that reaches the end after [k] steps is a chain of nodes. *)
Lemma chain_to_end (k : nat) :
  forall index,
    (index <= num_coords)%nat ->
    after next k index = End num_coords ->
    exists order, Forall node order /\ follows next index order (End num_coords).
Proof.
  induction k as [|k IH]; intros index Hle Hk; simpl in Hk.
  - exists []. split; [constructor | exact Hk].
  - destruct (Nat.eq_dec index num_coords) as [->|Hne].
    + exists []. split; [constructor | reflexivity].
    + assert (Hi : (index < num_coords)%nat) by lia.
      destruct (IH (next index)) as (order & Hn & Hf);
        [pose proof (successor_range index Hi); lia | exact Hk |].
      exists (index :: order). split; [now constructor | now split].
Qed.

(** The chain from an index to the end is unique. *)
Lemma chain_unique (l1 : list nat) :
  forall l2 index,
    Forall node l1 -> Forall node l2 ->
    follows next index l1 (End num_coords) ->
    follows next index l2 (End num_coords) ->
    l1 = l2.
Proof.
  unfold node, End.
  induction l1 as [|i l1 IH]; intros [|i' l2] index H1 H2 F1 F2;
    simpl in *.
  - reflexivity.
  - destruct F2 as [-> _]. inversion H2; subst. lia.
  - destruct F1 as [-> _]. inversion H1; subst. lia.
  - destruct F1 as [-> F1]. destruct F2 as [E F2]. subst i'.
    inversion H1; inversion H2; subst.
    f_equal. now apply (IH l2 (next i)).
Qed.

Lemma chain_suffix (l1 : list nat) :
  forall index i l2,
    follows next index (l1 ++ i :: l2) (End num_coords) ->
    follows next i (i :: l2) (End num_coords).
Proof.
  induction l1 as [|j l1 IH]; intros index i l2 H; simpl in H.
  - destruct H as [_ H]. now split.
  - destruct H as [_ H]. now apply (IH (next j)).
Qed.

Lemma chain_NoDup (order : list nat) :
  forall index,
    Forall node order ->
    follows next index order (End num_coords) ->
    NoDup order.
Proof.
  induction order as [|i order IH]; intros index Hn Hf; [constructor|].
  inversion Hn as [|? ? Hi Hrest]; subst.
  destruct Hf as [-> Hf].
  constructor; [|now apply (IH (next i))].
  intro Hin. apply in_split in Hin. destruct Hin as (l1 & l2 & E).
  assert (Hs : follows next i (i :: l2) (End num_coords)).
  { apply (chain_suffix l1 (next i)). now rewrite <- E. }
  assert (Hl : i :: l2 = i :: order).
  { apply (chain_unique (i :: l2) (i :: order) i).
    - constructor; [exact Hi|]. rewrite E in Hrest.
      apply Forall_app in Hrest. destruct Hrest as [_ Hrest].
      now inversion Hrest.
    - exact Hn.
    - exact Hs.
    - now split. }
  injection Hl as Hl. apply (f_equal (@length nat)) in E.
  rewrite <- Hl, length_app in E. simpl in E. lia.
Qed.

(** Every index of a chain, and its end, is where the chain starts or
    the successor of an index of the chain. *)
Lemma chain_predecessor (order : list nat) :
  forall index y,
    follows next index order (End num_coords) ->
    In y order \/ y = End num_coords ->
    y = index \/ exists p, In p order /\ next p = y.
Proof.
  induction order as [|i order IH]; intros index y Hf Hy; simpl in Hf.
  - destruct Hy as [[] | ->]. now left.
  - destruct Hf as [-> Hf].
    destruct (Nat.eq_dec y i) as [->|Hne]; [now left|].
    right.
    assert (Hy' : In y order \/ y = End num_coords).
    { destruct Hy as [[Hy|Hy]|Hy]; [congruence | now left | now right]. }
    destruct (IH (next i) y Hf Hy') as [-> | (p & Hp & E)].
    + exists i. split; [now left | reflexivity].
    + exists p. split; [now right | exact E].
Qed.

(** A node off the route from the start never reaches the end. *)
Lemma off_route_stays_off (order : list nat) :
  Forall node order ->
  follows next Start order (End num_coords) ->
  forall k x, node x -> ~ In x order -> after next k x <> End num_coords.
Proof.
  intros Hn Hf. unfold node in *.
  induction k as [|k IH]; intros x Hx Hout; simpl.
  - unfold End. lia.
  - assert (Hy : ~ (In (next x) order \/ next x = End num_coords)).
    { intro Hy.
      destruct (chain_predecessor order Start (next x) Hf Hy)
        as [E|(p & Hp & E)].
      - pose proof (successor_range x Hx). unfold Start in E. lia.
      - apply Hout. rewrite Forall_forall in Hn.
        now rewrite <- (successor_injective p x (Hn p Hp) Hx E). }
    apply IH.
    + pose proof (successor_range x Hx). unfold End in Hy. lia.
    + tauto.
Qed.

Theorem constraints_visit_every_node :
  (0 < num_coords)%nat -> visits_every_node num_coords next.
Proof.
  intro Hpos.
  destruct (no_cycle Start Hpos) as (k & Hk).
  destruct (chain_to_end k Start ltac:(unfold Start; lia) Hk)
    as (order & Hn & Hf).
  exists order. split; [|exact Hf].
  apply NoDup_Permutation.
  - now apply (chain_NoDup order Start).
  - apply seq_NoDup.
  - intro x. rewrite in_seq. split.
    + intro Hin. rewrite Forall_forall in Hn. specialize (Hn x Hin).
      unfold node in Hn. lia.
    + intros [_ Hx]. simpl in Hx.
      destruct (in_dec Nat.eq_dec x order) as [Hin|Hout]; [exact Hin|].
      exfalso. destruct (no_cycle x Hx) as (k' & Hk').
      exact (off_route_stays_off order Hn Hf k' x Hx Hout Hk').
Qed.

End RoutingFacts.

(** C2.  Given a shape of k points, and with the assignment of the
    routing library meeting the constraints of its model (a successor
    for every node, no two nodes with the same successor, no cycle),
    [_solve_tsp_for_coords] returns (its loop ends within k iterations)
    either a path that is a permutation of the input, of exactly k
    points, or [None] for no solution.  For k <= 1 it returns the input
    itself, whatever the solver would do. *)
Theorem solve_tsp_permutation_or_none
    (coords : list ImageTSPOptimizer.point) (s : ImageTSPOptimizer.solving)
    (fuel : nat) :
  (length coords < fuel)%nat ->
  (forall next,
      s = ImageTSPOptimizer.Solution next ->
      routing_constraints (length coords) next) ->
  ((exists path,
       ImageTSPOptimizer._solve_tsp_for_coords fuel coords s
         = Some (Some path)
       /\ Permutation path coords
       /\ length path = length coords)
   \/ ImageTSPOptimizer._solve_tsp_for_coords fuel coords s = Some None)
  /\ ((length coords <= 1)%nat ->
      forall s' fuel',
        ImageTSPOptimizer._solve_tsp_for_coords fuel' coords s'
          = Some (Some coords)).
Proof.
  intros Hfuel Hs. split.
  - unfold ImageTSPOptimizer._solve_tsp_for_coords.
    destruct (Nat.leb_spec (length coords) 1) as [_|Hk].
    + left. exists coords. auto.
    + destruct s as [next| |]; [|now right|now right].
      left. destruct (Hs next eq_refl) as (Hrange & Hinj & Hcycle).
      destruct (constraints_visit_every_node (length coords) next
                  Hrange Hinj Hcycle ltac:(lia))
        as (order & Hperm & Hf).
      exists (ImageTSPOptimizer.take_rows coords order).
      rewrite (route_indices_follows (length coords) next order).
      * split; [reflexivity|]. split.
        -- now apply take_rows_permutation.
        -- apply Permutation_length. now apply take_rows_permutation.
      * now apply permutation_of_seq_bounded.
      * apply Permutation_length in Hperm. rewrite length_seq in Hperm. lia.
      * exact Hf.
  - intros Hk s' fuel'.
    unfold ImageTSPOptimizer._solve_tsp_for_coords.
    destruct (Nat.leb_spec (length coords) 1); [reflexivity|lia].
Qed.

Lemma corner_next_meets_constraints : routing_constraints 3 corner_next.
Proof.
  split; [|split].
  - intros [|[|[|i]]] Hi; simpl; lia.
  - intros [|[|[|i]]] [|[|[|j]]] Hi Hj; simpl; lia.
  - intros [|[|[|i]]] Hi; [exists 3%nat | exists 1%nat | exists 2%nat | lia];
      reflexivity.
Qed.

Lemma solve_tsp_permutation_or_none_witness :
  (exists path,
      ImageTSPOptimizer._solve_tsp_for_coords 4 corner
        (ImageTSPOptimizer.Solution corner_next) = Some (Some path)
      /\ Permutation path corner
      /\ length path = length corner)
  \/ ImageTSPOptimizer._solve_tsp_for_coords 4 corner
       (ImageTSPOptimizer.Solution corner_next) = Some None.
Proof.
  apply (solve_tsp_permutation_or_none corner
           (ImageTSPOptimizer.Solution corner_next) 4).
  - simpl. lia.
  - intros next H. injection H as <-. exact corner_next_meets_constraints.
Defined.

(** *** The order that is returned, and the route that is priced *)

Section ReturnedOrderFacts.

Import ImageTSPOptimizer.

(** The route of an assignment that meets the constraints, as the
    [while] loop of [_solve_tsp_for_coords] reads it. *)
Lemma solution_route (coords : list point) (next : nat -> nat)
    (fuel : nat) :
  (2 <= length coords)%nat ->
  (length coords < fuel)%nat ->
  routing_constraints (length coords) next ->
  exists order,
    follows next Start order (End (length coords))
    /\ _solve_tsp_for_coords fuel coords (Solution next)
       = Some (Some (take_rows coords order))
    /\ Permutation order (seq 0 (length coords))
    /\ hd_error order = Some Start
    /\ ~ In Start (tl order).
Proof.
  intros Hk Hfuel (Hrange & Hinj & Hcycle).
  destruct (constraints_visit_every_node (length coords) next
              Hrange Hinj Hcycle ltac:(lia))
    as (order & Hperm & Hf).
  exists order. split; [exact Hf|].
  assert (Hlen : length order = length coords).
  { apply Permutation_length in Hperm. now rewrite length_seq in Hperm. }
  split; [|split; [exact Hperm|]].
  - unfold _solve_tsp_for_coords.
    destruct (Nat.leb_spec (length coords) 1) as [H|_]; [lia|].
    rewrite (route_indices_follows (length coords) next order);
      [reflexivity | now apply permutation_of_seq_bounded | lia | exact Hf].
  - assert (Hnd : NoDup order).
    { apply (Permutation_NoDup (Permutation_sym Hperm)), seq_NoDup. }
    destruct order as [|i rest]; [simpl in Hlen; lia|].
    destruct Hf as [<- _]. cbn [hd_error tl].
    split; [reflexivity|]. now inversion Hnd.
Qed.

End ReturnedOrderFacts.

(** C6, amended.  For a shape of at least two points the routing model
    prices a visiting order by the sum, over consecutive visited pairs,
    of the Euclidean distances rounded to the nearest integer, plus the
    rounded distance from the last visited point back to point 0, where
    the route starts: the objective is that of a closed tour.  The
    distance matrix is symmetric with a zero diagonal.  Only the order
    that [_solve_tsp_for_coords] returns is open: for an assignment that
    meets the constraints of the routing model it is the route of the
    assignment, which begins at point 0, lists every point once and
    does not come back to point 0 at its end, while the objective of
    that same route counts the way back.

    The routing library is not part of the repository: [IndexToNode],
    [End] and [objective] are [RoutingIndexManager(num_coords, 1, 0)]
    and [SetArcCostEvaluatorOfAllVehicles] as the library documents
    them; [distance_callback] and the loop that reads the route are the
    repository's code. *)
Theorem objective_is_closed_tour
    (coords : list ImageTSPOptimizer.point) (visited : list nat) :
  (2 <= length coords)%nat ->
  visited <> [] ->
  Forall (fun i => (i < length coords)%nat) visited ->
  ImageTSPOptimizer.objective coords visited
  = (ImageTSPOptimizer.open_path_cost coords visited
     + ImageTSPOptimizer.int_distances coords (last visited 0%nat) 0)%Z
  /\ (forall i j,
        ImageTSPOptimizer.int_distances coords i j
        = ImageTSPOptimizer.int_distances coords j i)
  /\ (forall i, ImageTSPOptimizer.int_distances coords i i = 0%Z)
  /\ (forall i j,
        let d := ImageTSPOptimizer.int_distances coords i j in
        let s := ImageTSPOptimizer.sq_euclidean
                   (nth i coords (0, 0)%Z) (nth j coords (0, 0)%Z) in
        (0 <= d /\ 4 * s < (2 * d + 1) ^ 2
         /\ (0 < d -> (2 * d - 1) ^ 2 <= 4 * s))%Z)
  /\ (forall next fuel,
        (length coords < fuel)%nat ->
        routing_constraints (length coords) next ->
        exists order,
          follows next ImageTSPOptimizer.Start order
            (ImageTSPOptimizer.End (length coords))
          /\ ImageTSPOptimizer._solve_tsp_for_coords fuel coords
               (ImageTSPOptimizer.Solution next)
             = Some (Some (ImageTSPOptimizer.take_rows coords order))
          /\ Permutation order (seq 0 (length coords))
          /\ hd_error order = Some ImageTSPOptimizer.Start
          /\ ~ In ImageTSPOptimizer.Start (tl order)
          /\ length (ImageTSPOptimizer.take_rows coords order)
             = length coords
          /\ ImageTSPOptimizer.objective coords order
             = (ImageTSPOptimizer.open_path_cost coords order
                + ImageTSPOptimizer.int_distances coords
                    (last order 0%nat) 0)%Z).
Proof.
  intros Hk Hne Hall.
  split; [now apply objective_closes_the_tour|].
  split; [apply int_distances_sym|].
  split; [apply int_distances_self|].
  split.
  - intros i j. apply rounded_sqrt_nearest.
    unfold ImageTSPOptimizer.sq_euclidean. nia.
  - intros next fuel Hfuel Hc.
    destruct (solution_route coords next fuel Hk Hfuel Hc)
      as (order & Hf & Hret & Hperm & Hhd & Hnot).
    exists order. repeat (split; [assumption|]).
    split.
    + unfold ImageTSPOptimizer.take_rows. rewrite length_map.
      apply Permutation_length in Hperm. now rewrite length_seq in Hperm.
    + apply objective_closes_the_tour.
      * intro E. subst order. discriminate Hhd.
      * now apply permutation_of_seq_bounded.
Qed.

(** The three pixels of the corner, visited in the order 0, 2, 1: the
    route costs 1 + 1 + 1, the last 1 for the way back from pixel 1 to
    pixel 0, and the order returned has the three pixels. *)
Lemma objective_is_closed_tour_witness :
  ImageTSPOptimizer.objective corner [0; 2; 1]%nat
  = (ImageTSPOptimizer.open_path_cost corner [0; 2; 1]%nat
     + ImageTSPOptimizer.int_distances corner 1 0)%Z
  /\ exists order,
       follows corner_next ImageTSPOptimizer.Start order
         (ImageTSPOptimizer.End (length corner))
       /\ ImageTSPOptimizer._solve_tsp_for_coords 4 corner
            (ImageTSPOptimizer.Solution corner_next)
          = Some (Some (ImageTSPOptimizer.take_rows corner order))
       /\ Permutation order (seq 0 (length corner))
       /\ hd_error order = Some ImageTSPOptimizer.Start
       /\ ~ In ImageTSPOptimizer.Start (tl order)
       /\ length (ImageTSPOptimizer.take_rows corner order) = length corner
       /\ ImageTSPOptimizer.objective corner order
          = (ImageTSPOptimizer.open_path_cost corner order
             + ImageTSPOptimizer.int_distances corner (last order 0%nat) 0)%Z.
Proof.
  pose proof (objective_is_closed_tour corner [0; 2; 1]%nat
                ltac:(simpl; lia) ltac:(discriminate)
                ltac:(repeat constructor; simpl; lia)) as T.
  split; [exact (proj1 T)|].
  apply (proj2 (proj2 (proj2 (proj2 T))) corner_next 4%nat).
  - simpl. lia.
  - exact corner_next_meets_constraints.
Defined.

(** ** ExperimentWorker: the progress event of a step *)

Section SteppingFacts.

Import ExperimentWorker.

Variable env : Env.
Variable runner : ExperimentRunner.t.
Variable estimated_total_seconds : Q.
Variable run_start_time : Q.

Hypothesis stages_connected :
  MotionSystem.is_connected (ExperimentRunner.motion_system runner) = true.

Lemma move_done (x y : Q) (k : nat) :
  moving env k = Done ->
  MotionSystem.move_to_um (ExperimentRunner.motion_system runner) x y
    (moving env k) = Returned true.
Proof.
  intro H. unfold MotionSystem.move_to_um.
  now rewrite stages_connected, H.
Qed.

(** A step that is reached emits the event of its row. *)
Lemma stepping_reached (rows : list (list Q)) :
  forall k j row,
    nth_error rows j = Some row ->
    (forall j', (j' <= j)%nat -> abort_requested env (k + j') = false) ->
    (forall j', (j' < j)%nat -> moving env (k + j') = Done) ->
    nth_error
      (fst (stepping env runner estimated_total_seconds run_start_time k rows))
      j
    = Some (progress env runner estimated_total_seconds run_start_time
              (k + j) row).
Proof.
  induction rows as [|row0 rows IH]; intros k j row Hrow Habort Hmove.
  - destruct j; discriminate.
  - cbn [stepping].
    pose proof (Habort 0%nat ltac:(lia)) as Hk. rewrite Nat.add_0_r in Hk.
    rewrite Hk.
    destruct j as [|j].
    + injection Hrow as <-. rewrite Nat.add_0_r.
      destruct (MotionSystem.move_to_um _ _ _ _) as [[|]|e];
        try reflexivity.
      now destruct (stepping env runner estimated_total_seconds
                      run_start_time (S k) rows).
    + pose proof (Hmove 0%nat ltac:(lia)) as Hm. rewrite Nat.add_0_r in Hm.
      rewrite (move_done _ _ k Hm).
      specialize (IH (S k) j row Hrow).
      destruct (stepping env runner estimated_total_seconds
                  run_start_time (S k) rows) as [evs r].
      cbn [fst nth_error] in *.
      replace (k + S j)%nat with (S k + j)%nat by lia.
      apply IH.
      * intros j' Hj'. replace (S k + j')%nat with (k + S j')%nat by lia.
        apply Habort. lia.
      * intros j' Hj'. replace (S k + j')%nat with (k + S j')%nat by lia.
        apply Hmove. lia.
Qed.

End SteppingFacts.

Section LoadedFacts.

Import ExperimentRunner.

(** After a successful load, [total_steps] is the number of rows. *)
Lemma loaded_total_steps (r0 r : t) (f : input_file) :
  load_coordinates r0 f = (r, Returned true) ->
  total_steps r = Z.of_nat (length (rows_of (coordinates r))).
Proof.
  unfold load_coordinates, load_failed.
  destruct f as [|e|content]; [discriminate| |].
  - destruct (is_Exception e); discriminate.
  - destruct (loadtxt content) as [a|e].
    + destruct (reshape_single_row a) as [v|v|rows columns];
        try discriminate.
      destruct (columns <? 2)%nat; [discriminate|].
      destruct (Z.of_nat (length rows) =? 0)%Z; [discriminate|].
      intro H. injection H as <-. reflexivity.
    + destruct (is_Exception e); discriminate.
Qed.

End LoadedFacts.


(** The product is formed in double precision before it is truncated:
    29 / 100 * 100 is a little less than 29. *)
Lemma percentage_29_of_100 : ExperimentWorker.percentage 29 100 = 28%Z.
Proof. reflexivity. Qed.

(** Against exact arithmetic: for every run of up to 200 steps the
    percentage of step i is the integer part of 100 * i / n, or one less
    where the rounding of i / n leaves the product just below an
    integer. *)
Lemma percentage_within_one_of_floor :
  forallb
    (fun n =>
       forallb
         (fun i =>
            let p := ExperimentWorker.percentage (Z.of_nat i) (Z.of_nat n) in
            let f := (100 * Z.of_nat i / Z.of_nat n)%Z in
            (p =? f)%Z || (p =? f - 1)%Z)
         (seq 1 n))
    (seq 1 200)
  = true.
Proof. vm_compute. reflexivity. Qed.



(** ** ExperimentRunner: the cleanup sequence of [run] *)

Create HintDb run_log.

Section RunFacts.

Import ExperimentRunner.

Variable env : Env.

Lemma emits_ret {A} (P : Event -> Prop) (a : A) : emits P (ret a).
Proof. intro w. exists []. simpl. now rewrite app_nil_r. Qed.

Lemma emits_raise {A} (P : Event -> Prop) (e : exn) : emits P (@raise A e).
Proof. intro w. exists []. simpl. now rewrite app_nil_r. Qed.

Lemma emits_require (P : Event -> Prop) (ok : bool) : emits P (require ok).
Proof. destruct ok; [apply emits_ret | apply emits_raise]. Qed.

Lemma emits_emit (P : Event -> Prop) (ev : Event) : P ev -> emits P (emit ev).
Proof. intros H w. exists [ev]. simpl. auto. Qed.

Lemma emits_call {A} (P : Event -> Prop) (ev : result A -> Event)
    (ticks : nat) (method : t -> nat -> t * result A) :
  (forall res, P (ev res)) -> emits P (call ev ticks method).
Proof.
  intros H w. unfold call.
  destruct (method (self w) (tick w)) as [r res].
  exists [ev res]. simpl. auto.
Qed.

Lemma emits_bind {A B} (P : Event -> Prop) (c : M A) (k : A -> M B) :
  emits P c -> (forall a, emits P (k a)) -> emits P (bind c k).
Proof.
  intros Hc Hk w. unfold bind.
  destruct (Hc w) as (evs1 & E1 & F1).
  destruct (c w) as [w1 [a|e]]; simpl in E1.
  - destruct (Hk a w1) as (evs2 & E2 & F2).
    exists (evs1 ++ evs2). rewrite E2, E1, app_assoc. split; [reflexivity|].
    apply Forall_app. auto.
  - exists evs1. simpl. auto.
Qed.

Lemma emits_choice {A} (P : Event -> Prop) (test : World -> bool)
    (c1 c2 : M A) :
  emits P c1 -> emits P c2 ->
  emits P (fun w => if test w then c1 w else c2 w).
Proof. intros H1 H2 w. destruct (test w); [apply H1 | apply H2]. Qed.

Lemma keeps_self_ret {A} (a : A) : keeps_self (ret a).
Proof. now intro w. Qed.

Lemma keeps_self_require (ok : bool) : keeps_self (require ok).
Proof. now destruct ok; intro w. Qed.

Lemma keeps_self_emit (ev : Event) : keeps_self (emit ev).
Proof. now intro w. Qed.

Lemma keeps_self_call {A} (ev : result A -> Event) (ticks : nat)
    (method : t -> nat -> t * result A) :
  (forall r k, fst (method r k) = r) -> keeps_self (call ev ticks method).
Proof.
  intros H w. unfold call. specialize (H (self w) (tick w)).
  now destruct (method (self w) (tick w)).
Qed.

Lemma keeps_self_bind {A B} (c : M A) (k : A -> M B) :
  keeps_self c -> (forall a, keeps_self (k a)) -> keeps_self (bind c k).
Proof.
  intros Hc Hk w. unfold bind. specialize (Hc w).
  destruct (c w) as [w1 [a|e]]; simpl in Hc.
  - now rewrite Hk.
  - exact Hc.
Qed.

#[local] Hint Resolve emits_ret emits_raise emits_require
  keeps_self_ret keeps_self_require keeps_self_emit : run_log.

(** Walks down a chain of binds, closing each link with the lemmas of
    the [run_log] database. *)
Ltac along_binds :=
  repeat first
    [ solve [auto with run_log]
    | apply emits_bind; [solve [auto with run_log] | intro]
    | apply keeps_self_bind; [solve [auto with run_log] | intro] ].

(** *** The loop *)

Lemma emits_move (x y : Q) : emits step_event (move_to_um env x y).
Proof. apply emits_call. now split. Qed.

Lemma emits_cure : emits step_event (cure env).
Proof. intro w. unfold cure. apply emits_call. now split. Qed.

Lemma keeps_self_move (x y : Q) : keeps_self (move_to_um env x y).
Proof. now apply keeps_self_call. Qed.

Lemma keeps_self_cure : keeps_self (cure env).
Proof. intro w. unfold cure. now apply keeps_self_call. Qed.

#[local] Hint Resolve emits_move emits_cure keeps_self_move keeps_self_cure
  : run_log.

Lemma emits_steps (rows : list (list Q)) : emits step_event (steps env rows).
Proof.
  induction rows as [|row rows IH]; cbn [steps]; along_binds; exact IH.
Qed.

Lemma keeps_self_steps (rows : list (list Q)) : keeps_self (steps env rows).
Proof.
  induction rows as [|row rows IH]; cbn [steps]; along_binds; exact IH.
Qed.

(** *** Before the UV source is switched on *)

Lemma emits_motion_disconnect : emits step_event (motion_disconnect env).
Proof. apply emits_call. now split. Qed.

Lemma emits_uv_disconnect : emits step_event (uv_disconnect env).
Proof. apply emits_call. now split. Qed.

#[local] Hint Resolve emits_motion_disconnect emits_uv_disconnect : run_log.

Lemma emits_connect_hardware : emits step_event (_connect_hardware env).
Proof.
  unfold _connect_hardware.
  apply emits_bind; [apply emits_call; now split|]. intro motion_ok.
  destruct motion_ok; cbn [negb]; [|apply emits_ret].
  apply emits_bind; [apply emits_call; now split|]. intro uv_ok.
  destruct uv_ok; cbn [negb].
  - apply (emits_choice step_event
             (fun w => negb (MotionSystem.is_connected (motion_system (self w)))
                       || negb (UVcontroller.is_connected
                                  (uv_controller (self w)))));
      along_binds.
  - along_binds.
Qed.

#[local] Hint Resolve emits_connect_hardware : run_log.

Lemma emits_setup (start_at_origin : bool) :
  emits step_event (setup env start_at_origin).
Proof.
  unfold setup.
  apply emits_bind; [apply emits_call; now split|]. intro ok.
  destruct start_at_origin; along_binds.
Qed.

End RunFacts.

Section CleanupFacts.

Import ExperimentRunner.

Variable env : Env.

Lemma uv_on_true_connected (u : UVcontroller.t) (io : UVcontroller.exchange) :
  UVcontroller.uv_on u io = Returned true -> UVcontroller.is_connected u = true.
Proof.
  unfold UVcontroller.uv_on, UVcontroller.send_command.
  destruct (UVcontroller.is_connected u); [reflexivity | discriminate].
Qed.

Lemma uv_disconnect_not_connected (u : UVcontroller.t) (closing : outcome) :
  UVcontroller.is_connected (fst (UVcontroller.disconnect u closing)) = false.
Proof.
  unfold UVcontroller.disconnect.
  destruct (UVcontroller.serial_open u); [destruct closing|]; reflexivity.
Qed.

Lemma step_event_not_cleanup (evs : list Event) :
  Forall step_event evs -> Forall (fun ev => is_cleanup ev = false) evs.
Proof. apply Forall_impl. now intros ev [H _]. Qed.

Lemma step_events_no_uv_on (evs : list Event) (r : result bool) :
  Forall step_event evs -> ~ In (UvOn r) evs.
Proof.
  intros H Hin. rewrite Forall_forall in H.
  destruct (H _ Hin) as [_ Hon]. discriminate.
Qed.

(** The loop and the line that follows it. *)
Lemma emits_all_steps : emits step_event (all_steps env).
Proof.
  apply emits_bind.
  - intro w. apply emits_steps.
  - intros _. apply emits_emit. now split.
Qed.

Lemma keeps_self_all_steps : keeps_self (all_steps env).
Proof.
  apply keeps_self_bind.
  - intro w. apply keeps_self_steps.
  - intros _. apply keeps_self_emit.
Qed.

(** When the loop returns, its last log line is that all steps were
    processed. *)
Lemma all_steps_returned (w : World) :
  returned (snd (all_steps env w)) = true ->
  exists evs, log (fst (all_steps env w)) = log w ++ evs ++ [AllStepsProcessed].
Proof.
  unfold all_steps, bind.
  destruct (emits_steps env (rows_of (coordinates (self w))) w)
    as (evs & E & _).
  destruct (steps env (rows_of (coordinates (self w))) w) as [w1 [a|e]];
    cbn [fst snd] in *; [|discriminate].
  intros _. exists evs. cbn [emit fst log]. now rewrite E, app_assoc.
Qed.

(** [exposure], by the result of [uv_on]. *)
Lemma exposure_cases (w : World) :
  let r := UVcontroller.uv_on (uv_controller (self w))
             (exchange_at env (tick w)) in
  let w1 := {| self := self w; tick := tick w + 1;
               log := log w ++ [UvOn r] |} in
  exposure env w
  = match r with
    | Returned true => all_steps env w1
    | Returned false => (w1, Raised RuntimeError)
    | Raised e => (w1, Raised e)
    end.
Proof.
  cbv zeta. unfold exposure, bind at 1 2, uv_on, call.
  destruct (UVcontroller.uv_on (uv_controller (self w))
              (exchange_at env (tick w))) as [[|]|e]; reflexivity.
Qed.

Lemma exposure_spec (w : World) :
  self (fst (exposure env w)) = self w
  /\ exists evs,
       log (fst (exposure env w)) = log w ++ evs
       /\ Forall (fun ev => is_cleanup ev = false) evs
       /\ (In (UvOn (Returned true)) evs ->
           UVcontroller.is_connected (uv_controller (self w)) = true)
       /\ (returned (snd (exposure env w)) = true ->
           exists evs0, evs = evs0 ++ [AllStepsProcessed]).
Proof.
  rewrite exposure_cases. cbv zeta.
  pose proof (uv_on_true_connected (uv_controller (self w))
                (exchange_at env (tick w))) as Hr.
  destruct (UVcontroller.uv_on (uv_controller (self w))
              (exchange_at env (tick w))) as [[|]|e].
  - (* the UV source is on: the loop runs *)
    set (w1 := {| self := self w; tick := tick w + 1;
                  log := log w ++ [UvOn (Returned true)] |}).
    destruct (emits_all_steps w1) as (evs & E & F).
    split; [apply (keeps_self_all_steps w1)|].
    exists (UvOn (Returned true) :: evs).
    split; [rewrite E; unfold w1; cbn [log]; now rewrite <- app_assoc|].
    split; [constructor; [reflexivity | now apply step_event_not_cleanup]|].
    split; [auto|].
    intro Hret. destruct (all_steps_returned w1 Hret) as (evs' & E').
    rewrite E in E'. apply app_inv_head in E'.
    exists (UvOn (Returned true) :: evs'). now rewrite E'.
  - split; [reflexivity|]. exists [UvOn (Returned false)].
    split; [reflexivity|]. split; [now repeat constructor|].
    split; [|discriminate].
    intros [H|[]]. discriminate.
  - split; [reflexivity|]. exists [UvOn (Raised e)].
    split; [reflexivity|]. split; [now repeat constructor|].
    split; [|discriminate].
    intros [H|[]]. discriminate.
Qed.

Lemma attempt_spec (start_at_origin : bool) (w : World) :
  exists evs,
    log (fst (attempt env start_at_origin w)) = log w ++ evs
    /\ Forall (fun ev => is_cleanup ev = false) evs
    /\ (In (UvOn (Returned true)) evs ->
        UVcontroller.is_connected
          (uv_controller (self (fst (attempt env start_at_origin w)))) = true)
    /\ (returned (snd (attempt env start_at_origin w)) = true ->
        exists evs0, evs = evs0 ++ [AllStepsProcessed]).
Proof.
  unfold attempt, bind.
  destruct (emits_setup env start_at_origin w) as (evs1 & E1 & F1).
  destruct (setup env start_at_origin w) as [w1 [[]|e]]; cbn [fst] in E1.
  - destruct (exposure_spec w1) as (K & evs2 & E2 & F2 & On & Last).
    exists (evs1 ++ evs2).
    split; [now rewrite E2, E1, app_assoc|].
    split; [apply Forall_app; split;
            [now apply step_event_not_cleanup | exact F2]|].
    split.
    + intro Hin. rewrite K. apply On. apply in_app_or in Hin.
      destruct Hin as [Hin|Hin]; [|exact Hin].
      now elim (step_events_no_uv_on evs1 (Returned true) F1).
    + intro Hret. destruct (Last Hret) as (evs0 & ->).
      exists (evs1 ++ evs0). now rewrite app_assoc.
  - exists evs1. cbn [fst snd returned].
    split; [exact E1|]. split; [now apply step_event_not_cleanup|].
    split; [|discriminate].
    intro Hin. now elim (step_events_no_uv_on evs1 (Returned true) F1).
Qed.

(** The cleanup sequence, when nothing interrupts it. *)
Lemma disconnect_hardware_returns (w w' : World) :
  _disconnect_hardware env w = (w', Returned tt) ->
  exists off,
    log w' = log w
             ++ [off; UvDisconnect (Returned tt); MotionDisconnect (Returned tt)]
    /\ (if UVcontroller.is_connected (uv_controller (self w))
        then exists ok, off = UvOff (Returned ok)
        else off = SkipUvOff)
    /\ UVcontroller.is_connected (uv_controller (self w')) = false
    /\ MotionSystem.is_connected (motion_system (self w')) = false.
Proof.
  unfold _disconnect_hardware, bind, uv_off, uv_disconnect, motion_disconnect,
    call, emit, ret.
  destruct (UVcontroller.is_connected (uv_controller (self w))) eqn:Ec.
  - destruct (UVcontroller.uv_off (uv_controller (self w))
                (exchange_at env (tick w))) as [ok|e]; cbn [self tick log];
      [|discriminate].
    pose proof (uv_disconnect_not_connected (uv_controller (self w))
                  (dev env (tick w + 1))) as Hu.
    destruct (UVcontroller.disconnect (uv_controller (self w))
                (dev env (tick w + 1))) as [u [[]|e]];
      cbn [self tick log]; [|discriminate].
    match goal with
    | |- context [MotionSystem.disconnect ?m ?io] =>
        pose proof (disconnect_not_connected m io) as Hm;
        destruct (MotionSystem.disconnect m io) as [m' [[]|e]]
    end; [|discriminate].
    intro H. injection H as <-. cbn [self log fst] in *.
    exists (UvOff (Returned ok)).
    split; [now rewrite <- !app_assoc|].
    split; [now exists ok|]. split; assumption.
  - cbn [self tick log].
    pose proof (uv_disconnect_not_connected (uv_controller (self w))
                  (dev env (tick w))) as Hu.
    destruct (UVcontroller.disconnect (uv_controller (self w))
                (dev env (tick w))) as [u [[]|e]];
      cbn [self tick log]; [|discriminate].
    match goal with
    | |- context [MotionSystem.disconnect ?m ?io] =>
        pose proof (disconnect_not_connected m io) as Hm;
        destruct (MotionSystem.disconnect m io) as [m' [[]|e]]
    end; [|discriminate].
    intro H. injection H as <-. cbn [self log fst] in *.
    exists SkipUvOff.
    split; [now rewrite <- !app_assoc|].
    split; [reflexivity|]. split; assumption.
Qed.

End CleanupFacts.

Section FinallyFacts.

Import ExperimentRunner.

Variable env : Env.

(** The [finally] block of [run], when nothing interrupts it. *)
Lemma finally_returns (w w' : World) (run_success_status status : bool) :
  (emit CleanupSequence ;;;
   _disconnect_hardware env ;;;
   ret run_success_status) w = (w', Returned status) ->
  status = run_success_status
  /\ exists off,
       log w' = log w
                ++ [CleanupSequence; off; UvDisconnect (Returned tt);
                    MotionDisconnect (Returned tt)]
       /\ (if UVcontroller.is_connected (uv_controller (self w))
           then exists ok, off = UvOff (Returned ok)
           else off = SkipUvOff)
       /\ UVcontroller.is_connected (uv_controller (self w')) = false
       /\ MotionSystem.is_connected (motion_system (self w')) = false.
Proof.
  unfold bind at 1 2. cbn [emit].
  set (w1 := {| self := self w; tick := tick w;
                log := log w ++ [CleanupSequence] |}).
  destruct (_disconnect_hardware env w1) as [w2 [[]|e]] eqn:Ed;
    [|discriminate].
  cbn [ret]. intro H. injection H as <- <-.
  split; [reflexivity|].
  destruct (disconnect_hardware_returns env w1 w2 Ed)
    as (off & El & Hoff & Hu & Hm).
  exists off. unfold w1 in El, Hoff. cbn [log self] in El, Hoff.
  rewrite <- app_assoc in El. auto.
Qed.

Lemma filter_none (evs : list Event) :
  Forall (fun ev => is_cleanup ev = false) evs -> filter is_cleanup evs = [].
Proof.
  induction 1 as [|ev evs Hev _ IH]; simpl; [reflexivity|].
  now rewrite Hev.
Qed.

End FinallyFacts.


(** What a run that returns has logged. *)
Lemma returned_run_log
    (env : ExperimentRunner.Env) (start_at_origin : bool)
    (w w' : ExperimentRunner.World) (status : bool) :
  ExperimentRunner.run env start_at_origin w = (w', Returned status) ->
  exists pre marker off,
    ExperimentRunner.log w'
    = ExperimentRunner.log w ++ pre
      ++ [marker; ExperimentRunner.CleanupSequence; off;
          ExperimentRunner.UvDisconnect (Returned tt);
          ExperimentRunner.MotionDisconnect (Returned tt)]
    /\ length (filter is_cleanup
                 (pre ++ [marker; ExperimentRunner.CleanupSequence; off;
                          ExperimentRunner.UvDisconnect (Returned tt);
                          ExperimentRunner.MotionDisconnect (Returned tt)]))
       = 1%nat
    /\ ((status = true /\ marker = ExperimentRunner.AllStepsProcessed)
        \/ (status = false
            /\ (marker = ExperimentRunner.Interrupted
                \/ exists e, marker = ExperimentRunner.CriticalError e)))
    /\ (if UVcontroller.is_connected
             (ExperimentRunner.uv_controller
                (ExperimentRunner.self
                   (fst (ExperimentRunner.attempt env start_at_origin w))))
        then exists ok, off = ExperimentRunner.UvOff (Returned ok)
        else off = ExperimentRunner.SkipUvOff)
    /\ (In (ExperimentRunner.UvOn (Returned true)) pre ->
        exists ok, off = ExperimentRunner.UvOff (Returned ok))
    /\ UVcontroller.is_connected
         (ExperimentRunner.uv_controller (ExperimentRunner.self w')) = false
    /\ MotionSystem.is_connected
         (ExperimentRunner.motion_system (ExperimentRunner.self w')) = false.
Proof.
  unfold ExperimentRunner.run.
  destruct (attempt_spec env start_at_origin w) as (evs & E & F & On & Last).
  destruct (ExperimentRunner.attempt env start_at_origin w) as [w1 r].
  cbn [fst snd] in *.
  destruct r as [[]|e].
  - (* all steps processed *)
    intro H. apply finally_returns in H.
    destruct H as (-> & off & El & Hoff & Hu & Hm).
    destruct (Last eq_refl) as (pre & ->).
    apply Forall_app in F. destruct F as [Fpre _].
    exists pre, ExperimentRunner.AllStepsProcessed, off.
    split; [rewrite El, E, <- !app_assoc; reflexivity|].
    split.
    { rewrite filter_app, (filter_none pre Fpre).
      destruct (UVcontroller.is_connected _) in Hoff;
        [destruct Hoff as [ok ->] | subst off]; reflexivity. }
    split; [now left|].
    split; [exact Hoff|].
    split; [|now split].
    intro Hin.
    rewrite On in Hoff by (apply in_or_app; now left). exact Hoff.
  - (* interrupted, or failed *)
    cbn [ExperimentRunner.emit fst].
    intro H. apply finally_returns in H.
    destruct H as (-> & off & El & Hoff & Hu & Hm).
    cbn [ExperimentRunner.self ExperimentRunner.log] in El, Hoff.
    exists evs,
      (if is_Exception e then ExperimentRunner.CriticalError e
       else ExperimentRunner.Interrupted), off.
    split; [rewrite El, E, <- !app_assoc; reflexivity|].
    split.
    { rewrite filter_app, (filter_none evs F).
      destruct (UVcontroller.is_connected _) in Hoff;
        [destruct Hoff as [ok ->] | subst off];
        destruct (is_Exception e); reflexivity. }
    split.
    { right. split; [reflexivity|].
      destruct (is_Exception e); [right; now exists e | now left]. }
    split; [exact Hoff|].
    split; [|now split].
    intro Hin. rewrite (On Hin) in Hoff. exact Hoff.
Qed.

Section ReturnFacts.

Import ExperimentRunner.

Variable env : Env.

Lemma quiet_outcome (k0 k : nat) :
  quiet_from env k0 -> (k0 <= k)%nat ->
  match dev env k with
  | Done => True
  | Throws e => is_Exception e = true
  end.
Proof.
  intros Hq Hk. destruct (dev env k) as [|e] eqn:E; [exact I|].
  exact (Hq k e Hk E).
Qed.

Lemma uv_off_returns (u : UVcontroller.t) (k0 k : nat) :
  quiet_from env k0 -> (k0 <= k)%nat ->
  exists ok, UVcontroller.uv_off u (exchange_at env k) = Returned ok.
Proof.
  intros Hq Hk. pose proof (quiet_outcome k0 k Hq Hk) as H.
  unfold UVcontroller.uv_off, UVcontroller.send_command, exchange_at.
  destruct (negb (UVcontroller.is_connected u)); [now eexists|].
  destruct (dev env k) as [|e]; [now eexists|]. rewrite H. now eexists.
Qed.

Lemma uv_disconnect_returns (u : UVcontroller.t) (k0 k : nat) :
  quiet_from env k0 -> (k0 <= k)%nat ->
  snd (UVcontroller.disconnect u (dev env k)) = Returned tt.
Proof.
  intros Hq Hk. pose proof (quiet_outcome k0 k Hq Hk) as H.
  unfold UVcontroller.disconnect.
  destruct (UVcontroller.serial_open u); [|reflexivity].
  destruct (dev env k) as [|e]; [reflexivity|]. simpl. now rewrite H.
Qed.

Lemma motion_disconnect_returns (m : MotionSystem.t) (k0 k : nat) :
  quiet_from env k0 -> (k0 <= k)%nat ->
  snd (MotionSystem.disconnect m
         {| MotionSystem.close_x := dev env k;
            MotionSystem.close_y := dev env (k + 1) |}) = Returned tt.
Proof.
  intros Hq Hk.
  pose proof (quiet_outcome k0 k Hq Hk) as Hx.
  pose proof (quiet_outcome k0 (k + 1) Hq ltac:(lia)) as Hy.
  unfold MotionSystem.disconnect, MotionSystem.close_stages,
    MotionSystem.close_if.
  destruct (negb (MotionSystem._is_connected m)); [reflexivity|].
  cbn [snd MotionSystem.close_x MotionSystem.close_y].
  destruct (MotionSystem.stage_x m), (MotionSystem.stage_y m),
    (dev env k) as [|ex], (dev env (k + 1)) as [|ey];
    first [ reflexivity | now rewrite Hx | now rewrite Hy ].
Qed.

Lemma disconnect_hardware_quiet (w : World) :
  quiet_from env (tick w) ->
  exists w', _disconnect_hardware env w = (w', Returned tt).
Proof.
  intro Hq.
  unfold _disconnect_hardware, bind, uv_off, uv_disconnect, motion_disconnect,
    call, emit, ret.
  destruct (UVcontroller.is_connected (uv_controller (self w))).
  - destruct (uv_off_returns (uv_controller (self w)) (tick w) (tick w) Hq
                ltac:(lia)) as (ok & ->).
    cbn [self tick log].
    pose proof (uv_disconnect_returns (uv_controller (self w)) (tick w)
                  (tick w + 1) Hq ltac:(lia)) as Hu.
    destruct (UVcontroller.disconnect (uv_controller (self w))
                (dev env (tick w + 1))) as [u ru].
    cbn [snd] in Hu. subst ru. cbn [self tick log].
    match goal with
    | |- context [MotionSystem.disconnect ?m _] =>
        pose proof (motion_disconnect_returns m (tick w) (tick w + 1 + 1) Hq
                      ltac:(lia)) as Hm
    end.
    destruct (MotionSystem.disconnect _ _) as [m rm].
    cbn [snd] in Hm. subst rm. now eexists.
  - cbn [self tick log].
    pose proof (uv_disconnect_returns (uv_controller (self w)) (tick w)
                  (tick w) Hq ltac:(lia)) as Hu.
    destruct (UVcontroller.disconnect (uv_controller (self w))
                (dev env (tick w))) as [u ru].
    cbn [snd] in Hu. subst ru. cbn [self tick log].
    match goal with
    | |- context [MotionSystem.disconnect ?m _] =>
        pose proof (motion_disconnect_returns m (tick w) (tick w + 1) Hq
                      ltac:(lia)) as Hm
    end.
    destruct (MotionSystem.disconnect _ _) as [m rm].
    cbn [snd] in Hm. subst rm. now eexists.
Qed.

(** [run] returns when nothing interrupts its [finally] block. *)
Lemma run_returns (start_at_origin : bool) (w : World) :
  quiet_from env (tick (fst (attempt env start_at_origin w))) ->
  exists w' status, run env start_at_origin w = (w', Returned status).
Proof.
  intro Hq. unfold run.
  destruct (attempt env start_at_origin w) as [w1 r]. cbn [fst] in Hq.
  assert (H : forall (w2 : World) (b : bool), tick w2 = tick w1 ->
            exists w' status,
              (emit CleanupSequence ;;; _disconnect_hardware env ;;; ret b) w2
              = (w', Returned status)).
  { intros w2 b Ht. unfold bind at 1 2. cbn [emit].
    set (w3 := {| self := self w2; tick := tick w2;
                  log := log w2 ++ [CleanupSequence] |}).
    destruct (disconnect_hardware_quiet w3) as (w' & ->).
    - unfold w3. cbn [tick]. now rewrite Ht.
    - now exists w', b. }
  destruct r as [[]|e]; apply H; reflexivity.
Qed.

End ReturnFacts.



(** * Further properties of the code *)

(** ** helpers: [seconds_to_hms] *)

Section HmsFacts.

Import helpers.

Lemma divmod_spec (x : Q) (k : Z) :
  (0 < k)%Z -> 0 <= x ->
  let '(q, r) := divmod x (inject_Z k) in
  (0 <= q)%Z /\ 0 <= r /\ r < inject_Z k /\ x == inject_Z q * inject_Z k + r.
Proof.
  intros Hk Hx. unfold divmod.
  assert (Hk' : 0 < inject_Z k)
    by (change 0 with (inject_Z 0); now rewrite <- Zlt_Qlt).
  set (y := inject_Z k) in *.
  pose proof (Qfloor_le (x / y)) as Hlo.
  pose proof (Qlt_floor (x / y)) as Hhi.
  set (q := Qfloor (x / y)) in *.
  assert (Hxy : x == (x / y) * y) by (field; lra).
  rewrite inject_Z_plus in Hhi. change (inject_Z 1) with 1 in Hhi.
  assert (H1 : inject_Z q * y <= (x / y) * y)
    by (apply Qmult_le_compat_r; lra).
  assert (H2 : (x / y) * y < (inject_Z q + 1) * y)
    by (apply Qmult_lt_compat_r; lra).
  split.
  - assert (H : 0 <= x / y) by (apply Qle_shift_div_l; lra).
    apply Qfloor_resp_le in H. exact H.
  - split; [lra|]. split; [|ring].
    ring_simplify in H2. lra.
Qed.

Lemma round_spec (x : Q) :
  inject_Z (round x) - x <= 1 # 2 /\ x - inject_Z (round x) <= 1 # 2
  /\ (Qfloor x <= round x <= Qfloor x + 1)%Z.
Proof.
  unfold round.
  pose proof (Qfloor_le x) as Hlo.
  pose proof (Qlt_floor x) as Hhi.
  rewrite inject_Z_plus in Hhi. change (inject_Z 1) with 1 in Hhi.
  set (f := Qfloor x) in *.
  destruct (x - inject_Z f ?= 1 # 2) eqn:E.
  - apply Qeq_alt in E. destruct (Z.even f).
    + split; [lra|]. split; [lra|lia].
    + rewrite inject_Z_plus. change (inject_Z 1) with 1.
      split; [lra|]. split; [lra|lia].
  - apply Qlt_alt in E. split; [lra|]. split; [lra|lia].
  - apply Qgt_alt in E. rewrite inject_Z_plus. change (inject_Z 1) with 1.
    split; [lra|]. split; [lra|lia].
Qed.

End HmsFacts.

(** The seconds are rounded after the minutes were split off, so they
    can come out as 60. *)
Lemma seconds_to_hms_sixty_seconds :
  helpers.seconds_to_hms (596 # 10) = (0, 0, 60)%Z.
Proof. reflexivity. Qed.

(** X1.  For a duration that is not negative, [seconds_to_hms] gives
    hours, minutes and seconds that are not negative, with the minutes
    below 60 and the seconds at most 60 (60 is reached), and that add up
    to the duration within half a second.  A negative duration gives
    (0, 0, 0). *)
Theorem seconds_to_hms_decomposes (seconds : Q) :
  (seconds < 0 -> helpers.seconds_to_hms seconds = (0, 0, 0)%Z)
  /\ (0 <= seconds ->
      let '(hours, minutes, secs) := helpers.seconds_to_hms seconds in
      (0 <= hours)%Z /\ (0 <= minutes < 60)%Z /\ (0 <= secs <= 60)%Z
      /\ inject_Z (3600 * hours + 60 * minutes + secs) - seconds <= 1 # 2
      /\ seconds - inject_Z (3600 * hours + 60 * minutes + secs) <= 1 # 2).
Proof.
  unfold helpers.seconds_to_hms. split.
  - intro Hneg. destruct (Qle_bool 0 seconds) eqn:E; [|reflexivity].
    apply Qle_bool_iff in E. lra.
  - intro H0.
    destruct (Qle_bool 0 seconds) eqn:E;
      [|rewrite <- Qle_bool_iff in H0; congruence].
    cbn [negb].
    pose proof (divmod_spec seconds 3600 ltac:(lia) H0) as H1.
    change (inject_Z 3600) with 3600 in H1.
    destruct (helpers.divmod seconds 3600) as [hours remainder].
    destruct H1 as (Hh & Hr0 & Hr1 & Hs).
    pose proof (divmod_spec remainder 60 ltac:(lia) Hr0) as H2.
    change (inject_Z 60) with 60 in H2.
    destruct (helpers.divmod remainder 60) as [minutes seconds_rem].
    destruct H2 as (Hm & Hq0 & Hq1 & Hr).
    destruct (round_spec seconds_rem) as (Ra & Rb & Rc).
    assert (Hm60 : (minutes < 60)%Z).
    { apply Z.lt_nge. intro Hge. rewrite Zle_Qle in Hge.
      change (inject_Z 60) with 60 in Hge. lra. }
    assert (Hf0 : (0 <= Qfloor seconds_rem)%Z).
    { apply Qfloor_resp_le in Hq0. exact Hq0. }
    assert (Hf59 : (Qfloor seconds_rem <= 59)%Z).
    { apply Z.lt_succ_r. rewrite Zlt_Qlt.
      eapply Qle_lt_trans; [apply Qfloor_le|]. exact Hq1. }
    split; [exact Hh|]. split; [lia|]. split; [lia|].
    rewrite !inject_Z_plus, !inject_Z_mult.
    change (inject_Z 3600) with 3600. change (inject_Z 60) with 60.
    split; lra.
Qed.

(** One hour, two minutes and three and a quarter seconds. *)
Lemma seconds_to_hms_decomposes_witness :
  let '(hours, minutes, secs) := helpers.seconds_to_hms (14893 # 4) in
  (0 <= hours)%Z /\ (0 <= minutes < 60)%Z /\ (0 <= secs <= 60)%Z
  /\ inject_Z (3600 * hours + 60 * minutes + secs) - (14893 # 4) <= 1 # 2
  /\ (14893 # 4) - inject_Z (3600 * hours + 60 * minutes + secs) <= 1 # 2.
Proof.
  apply (proj2 (seconds_to_hms_decomposes (14893 # 4))).
  discriminate.
Defined.

(** ** UVcontroller: [connect], [disconnect] and [uv_port_status] *)

Section UVportFacts.

Import UVcontroller.

Lemma last_char_hex (b : byte) (response : bytes) :
  last_char (hex (response ++ [b]))
  = Some (hex_digit (Byte.to_N b mod 16)).
Proof.
  induction response as [|b' response IH]; [reflexivity|].
  change (hex ((b' :: response) ++ [b]))
    with (hex_digit (Byte.to_N b' / 16)
          :: hex_digit (Byte.to_N b' mod 16) :: hex (response ++ [b])).
  destruct (hex (response ++ [b])) as [|c rest] eqn:E; [discriminate IH|].
  exact IH.
Qed.

Lemma low_digit_is_one (b : byte) :
  Ascii.eqb (hex_digit (Byte.to_N b mod 16)) "1"
  = (Byte.to_N b mod 16 =? 1)%N.
Proof. destruct b; reflexivity. Qed.

Lemma nonempty_last {A} (l : list A) (d : A) :
  l <> [] -> l = removelast l ++ [last l d].
Proof. intro H. now apply app_removelast_last. Qed.

End UVportFacts.

(** X2.  Whenever [connect] returns, the value it returns is what
    [is_connected] answers afterwards; after a [False] the port object
    is gone.  When the port is already open no new port is opened: the
    result does not depend on what opening one would do. *)
Theorem uv_connect_reports_connection
    (uv uv' : UVcontroller.t) (opening : outcome) (ok : bool) :
  UVcontroller.connect uv opening = (uv', Returned ok) ->
  UVcontroller.is_connected uv' = ok
  /\ (ok = false -> UVcontroller.serial uv' = None)
  /\ (UVcontroller.serial_open uv = true ->
      forall opening',
        UVcontroller.connect uv opening' = (uv', Returned true)).
Proof.
  unfold UVcontroller.connect, UVcontroller.is_connected.
  destruct (UVcontroller.serial_open uv) eqn:Eo.
  - intro H. injection H as <- <-.
    unfold UVcontroller.serial_open in *. cbn.
    rewrite Eo. repeat split; discriminate.
  - destruct opening as [|e].
    + intro H. injection H as <- <-. repeat split; discriminate.
    + destruct (is_Exception e); [|discriminate].
      intro H. injection H as <- <-. repeat split; discriminate.
Qed.

Lemma uv_connect_reports_connection_witness :
  UVcontroller.is_connected
    {| UVcontroller.serial := None; UVcontroller._is_connected := false |}
  = false.
Proof.
  apply (uv_connect_reports_connection UVcontroller.__init__ _
           (Throws SerialException) false eq_refl).
Defined.

(** X3.  After [disconnect], whether the port's [close] went through or
    raised, the controller is not connected, and until it is connected
    again no command reaches the device: [send_command] returns empty
    bytes, [uv_on] and [uv_off] return [False] and [uv_port_status]
    returns [None], whatever the device would answer.  A [connect] that
    opens the port then connects it again. *)
Theorem uv_disconnect_silences
    (uv : UVcontroller.t) (closing : outcome) (io : UVcontroller.exchange) :
  let uv' := fst (UVcontroller.disconnect uv closing) in
  UVcontroller.is_connected uv' = false
  /\ (forall command, UVcontroller.send_command uv' command io = Returned [])
  /\ UVcontroller.uv_on uv' io = Returned false
  /\ UVcontroller.uv_off uv' io = Returned false
  /\ UVcontroller.uv_port_status uv' io = Returned None
  /\ UVcontroller.is_connected (fst (UVcontroller.connect uv' Done)) = true.
Proof.
  cbv zeta.
  pose proof (uv_disconnect_not_connected uv closing) as H.
  split; [exact H|].
  split; [intro command; now apply send_command_disconnected|].
  unfold UVcontroller.uv_on, UVcontroller.uv_off, UVcontroller.uv_port_status.
  rewrite !send_command_disconnected by exact H.
  repeat split.
  unfold UVcontroller.disconnect, UVcontroller.connect.
  destruct (UVcontroller.serial_open uv) eqn:Eo.
  - now destruct closing.
  - unfold UVcontroller.serial_open in *. cbn. now rewrite Eo.
Qed.

(** X4.  On a connected controller that answers at least one byte,
    [uv_port_status] reports ON exactly when the low four bits of the
    last byte of the answer are 0001: it looks at one hexadecimal digit
    and at nothing else of the answer.  With no answer it is [None]. *)
Theorem uv_port_status_reads_last_digit
    (uv : UVcontroller.t) (response : bytes) :
  UVcontroller.is_connected uv = true ->
  (response <> [] ->
   UVcontroller.uv_port_status uv (UVcontroller.Answer response)
   = Returned (Some (Byte.to_N (last response x00) mod 16 =? 1)%N))
  /\ UVcontroller.uv_port_status uv (UVcontroller.Answer []) = Returned None
  /\ (forall e, is_Exception e = true ->
        UVcontroller.uv_port_status uv (UVcontroller.Broken e)
        = Returned None).
Proof.
  intro Hc.
  unfold UVcontroller.uv_port_status, UVcontroller.send_command.
  rewrite Hc. cbn [negb]. split; [|split].
  - intro Hne.
    assert (Ht : truthy response = true)
      by (destruct response; [contradiction | reflexivity]).
    assert (Hl : UVcontroller.last_char (UVcontroller.hex response)
                 = Some (UVcontroller.hex_digit
                           (Byte.to_N (last response x00) mod 16))).
    { rewrite (nonempty_last response x00 Hne) at 1. apply last_char_hex. }
    rewrite Ht, Hl, low_digit_is_one. reflexivity.
  - reflexivity.
  - intros e He. now rewrite He.
Qed.

(** The answers a5 c4 00 01 and a5 c4 00 f1 are both read as ON. *)
Lemma uv_port_status_reads_last_digit_witness :
  UVcontroller.uv_port_status
    {| UVcontroller.serial := Some {| UVcontroller.is_open := true |};
       UVcontroller._is_connected := true |}
    (UVcontroller.Answer [xa5; xc4; x00; xf1])
  = Returned (Some true).
Proof.
  apply (proj1 (uv_port_status_reads_last_digit
                  {| UVcontroller.serial :=
                       Some {| UVcontroller.is_open := true |};
                     UVcontroller._is_connected := true |}
                  [xa5; xc4; x00; xf1] eq_refl)).
  discriminate.
Defined.

(** ** MotionSystem: calls that return, and requests after [disconnect] *)

Section MotionCallsFacts.

Import MotionSystem.

Lemma connect_returns_agree (m m' : t) (io : connecting) (ok : bool) :
  handles_agree m ->
  connect m io = (m', Returned ok) ->
  handles_agree m' /\ _is_connected m' = ok.
Proof.
  unfold handles_agree, connect, connect_failed.
  intro Hm.
  destruct (_is_connected m) eqn:Ef.
  - intro H. injection H as <- <-. now rewrite Ef.
  - destruct (open_x io) as [|ex].
    + destruct (open_y io) as [|ey].
      * intro H. injection H as <- <-. cbn. repeat split; discriminate.
      * destruct (is_Exception ey); [|discriminate]. cbn.
        destruct (undo_x io); [|discriminate].
        destruct (close_if (stage_y m) (undo_y io)); [|discriminate].
        intro H. injection H as <- <-. now cbn.
    + destruct (is_Exception ex); [|discriminate].
      destruct (close_if (stage_x m) (undo_x io)); [|discriminate].
      destruct (close_if (stage_y m) (undo_y io)); [|discriminate].
      intro H. injection H as <- <-. now cbn.
Qed.

Lemma disconnect_agree (m : t) (io : closing) :
  handles_agree m -> handles_agree (fst (disconnect m io)).
Proof.
  unfold handles_agree, disconnect. intro Hm.
  destruct (_is_connected m) eqn:Ef; cbn; [now split|].
  now rewrite Ef.
Qed.

Lemma handles_agree_is_connected (m : t) :
  handles_agree m -> is_connected m = _is_connected m.
Proof.
  unfold handles_agree, is_connected.
  destruct (_is_connected m); [|reflexivity].
  intros [Hx Hy].
  destruct (stage_x m); [|contradiction].
  destruct (stage_y m); [reflexivity|contradiction].
Qed.

Lemma init_dist_per_step (x_serial y_serial : Z) (d : Q) (m : t) :
  __init__ x_serial y_serial d = Returned m ->
  dist_per_step m = d /\ ~ d == 0
  /\ stage_x m = None /\ stage_y m = None /\ _is_connected m = false.
Proof.
  unfold __init__. destruct (Qeq_bool d 0) eqn:E; [discriminate|].
  intro H. injection H as <-. cbn. repeat split.
  intro H0. apply Qeq_bool_iff in H0. congruence.
Qed.

End MotionCallsFacts.

(** X5.  From a motion system as [__init__] makes it, through any
    sequence of [connect] and [disconnect] calls of which none is left
    by an exception, the two stage handles agree with the connected
    flag: both are set when the flag is set and both are [None] when it
    is not, so [is_connected] answers what the flag says.  (A call left
    by an exception can break this.) *)
Theorem motion_calls_keep_handles_agreeing
    (x_serial y_serial : Z) (dist_per_step : Q)
    (m0 m : MotionSystem.t) (calls : list motion_call) :
  MotionSystem.__init__ x_serial y_serial dist_per_step = Returned m0 ->
  motion_calls m0 calls = Some m ->
  handles_agree m
  /\ MotionSystem.is_connected m = MotionSystem._is_connected m.
Proof.
  intros Hinit Hcalls.
  assert (H0 : handles_agree m0).
  { destruct (init_dist_per_step _ _ _ _ Hinit) as (_ & _ & Hx & Hy & Hf).
    unfold handles_agree. now rewrite Hf. }
  clear Hinit.
  assert (H : handles_agree m).
  { revert m0 H0 Hcalls.
    induction calls as [|[io|io] calls IH]; intros m0 H0 Hcalls;
      simpl in Hcalls.
    - now injection Hcalls as <-.
    - destruct (MotionSystem.connect m0 io) as [m1 [ok|e]] eqn:E;
        [|discriminate].
      apply (IH m1); [|exact Hcalls].
      now apply (connect_returns_agree m0 m1 io ok).
    - pose proof (disconnect_agree m0 io H0) as H1.
      destruct (MotionSystem.disconnect m0 io) as [m1 [u|e]];
        [|discriminate].
      now apply (IH m1). }
  split; [exact H | now apply handles_agree_is_connected].
Qed.

Lemma motion_calls_keep_handles_agreeing_witness :
  exists m,
    motion_calls idle_stages reconnecting = Some m
    /\ handles_agree m
    /\ MotionSystem.is_connected m = MotionSystem._is_connected m.
Proof.
  eexists. split; [reflexivity|].
  apply (motion_calls_keep_handles_agreeing 27269534 27269887
           config.DIST_PER_STEP idle_stages _ reconnecting);
    reflexivity.
Defined.

(** X7.  After [disconnect], whatever the two [close] calls did, the
    motion system refuses every request without a call to a stage:
    [move_to_um] and [home] return [False] and [get_position_um] returns
    [(None, None)], whatever the stages would do or read. *)
Theorem motion_disconnect_refuses_requests
    (m : MotionSystem.t) (io : MotionSystem.closing) :
  let m' := fst (MotionSystem.disconnect m io) in
  (forall x y moving, MotionSystem.move_to_um m' x y moving = Returned false)
  /\ (forall wait homing, MotionSystem.home m' wait homing = Returned false)
  /\ (forall r, MotionSystem.get_position_um m' r = Returned (None, None)).
Proof.
  cbv zeta. pose proof (disconnect_not_connected m io) as H.
  unfold MotionSystem.move_to_um, MotionSystem.home,
    MotionSystem.get_position_um.
  rewrite H. now repeat split.
Qed.

(** ** ExperimentRunner: what a successful load leaves *)

Section LoadedRowsFacts.

Import ExperimentRunner.

Lemma forallb_same_length (k : nat) (rows : list (list Q)) :
  forallb (fun r' => (length r' =? k)%nat) rows = true ->
  Forall (fun row => length row = k) rows.
Proof.
  induction rows as [|row rows IH]; simpl; intro H; constructor.
  - apply andb_prop in H. now apply Nat.eqb_eq.
  - apply IH. now apply andb_prop in H.
Qed.

(** What [squeeze] and the single-row reshape make of a table. *)
Lemma reshaped_table (row : list Q) (rows rows' : list (list Q))
    (columns : nat) :
  Forall (fun r => length r = length row) rows ->
  reshape_single_row (squeeze (row :: rows) (length row))
  = Array2 rows' columns ->
  rows' <> [] /\ Forall (fun r => length r = columns) rows'.
Proof.
  intros Hall. unfold squeeze.
  destruct rows as [|row2 rows].
  - destruct row as [|v [|v2 row]]; cbn; try discriminate.
    intro H. injection H as <- <-.
    split; [discriminate | now repeat constructor].
  - destruct (Nat.eqb_spec (length row) 1) as [E|E].
    + assert (Hr : reshape_single_row
                     (Array1 (map (fun r => nth 0 r 0) (row :: row2 :: rows)))
                   = Array2 [map (fun r => nth 0 r 0) (row :: row2 :: rows)]
                       (length (map (fun r => nth 0 r 0)
                                  (row :: row2 :: rows))))
        by reflexivity.
      destruct row as [|v [|v2 row]]; try discriminate E.
      rewrite Hr. intro H. injection H as <- <-.
      split; [discriminate | now repeat constructor].
    + destruct row as [|v [|v2 row]]; cbn in E |- *; try lia;
        intro H; injection H as <- <-;
        (split; [discriminate | constructor; [reflexivity | exact Hall]]).
Qed.

(** The coordinates after a successful load. *)
Lemma load_success_table (r0 r : t) (f : input_file) :
  load_coordinates r0 f = (r, Returned true) ->
  exists rows columns,
    coordinates r = Some (Array2 rows columns)
    /\ rows <> []
    /\ (2 <= columns)%nat
    /\ Forall (fun row => length row = columns) rows
    /\ total_steps r = Z.of_nat (length rows).
Proof.
  unfold load_coordinates, load_failed.
  destruct f as [|e|content]; [discriminate| |].
  { destruct (is_Exception e); discriminate. }
  unfold loadtxt.
  destruct (table content) as [[|row rows]|];
    [discriminate| |discriminate].
  destruct (forallb _ rows) eqn:Eall; [|discriminate].
  apply forallb_same_length in Eall.
  destruct (reshape_single_row _) as [v|v|rows' columns]
    eqn:Er; try discriminate.
  destruct (reshaped_table row rows rows' columns Eall Er) as [Hne Hrect].
  destruct (Nat.ltb_spec columns 2) as [_|Hk]; [discriminate|].
  destruct (Z.of_nat (length rows') =? 0)%Z; [discriminate|].
  intro H. injection H as <-.
  exists rows', columns. now repeat split.
Qed.

End LoadedRowsFacts.

(** X8.  Whatever the file holds, when [load_coordinates] returns [True]
    the coordinates are a table of at least one row whose rows all have
    the same number of columns, at least two, and [total_steps] is its
    number of rows: the loop of [run] finds [row[0]] and [row[1]] in
    every row. *)
Theorem loaded_rows_well_formed
    (r0 r : ExperimentRunner.t) (f : ExperimentRunner.input_file) :
  ExperimentRunner.load_coordinates r0 f = (r, Returned true) ->
  exists rows columns,
    ExperimentRunner.coordinates r
    = Some (ExperimentRunner.Array2 rows columns)
    /\ rows <> []
    /\ (2 <= columns)%nat
    /\ Forall (fun row => length row = columns) rows
    /\ ExperimentRunner.total_steps r = Z.of_nat (length rows).
Proof. apply load_success_table. Qed.

(** The one-column file ["1\n2\n3\n"], which loads as the single row
    (1, 2, 3). *)
Lemma loaded_rows_well_formed_witness :
  exists rows columns,
    ExperimentRunner.coordinates
      (ExperimentRunner.with_coordinates fresh_runner
         (Some (ExperimentRunner.Array2 [[1; 2; 3]] 3)) 1)
    = Some (ExperimentRunner.Array2 rows columns)
    /\ rows <> []
    /\ (2 <= columns)%nat
    /\ Forall (fun row => length row = columns) rows
    /\ ExperimentRunner.total_steps
         (ExperimentRunner.with_coordinates fresh_runner
            (Some (ExperimentRunner.Array2 [[1; 2; 3]] 3)) 1)
       = Z.of_nat (length rows).
Proof.
  apply (loaded_rows_well_formed fresh_runner _
           (ExperimentRunner.Lines
              [[ExperimentRunner.Num 1]; [ExperimentRunner.Num 2];
               [ExperimentRunner.Num 3]])).
  reflexivity.
Defined.

(** ** ExperimentRunner: the estimate grows with the work *)

(** X9.  Between two runners with the same overheads, the estimate of
    [estimate_duration] does not decrease when only the cure time grows
    (for a loaded file), nor when only the number of steps grows (for a
    cure time and move overhead that are not negative in sum); with
    nothing loaded it is 0.  Python's floats are read as exact
    rationals. *)
Theorem estimate_duration_monotone (r r' : ExperimentRunner.t) :
  ExperimentRunner.uv_command_overhead_s r
    == ExperimentRunner.uv_command_overhead_s r' ->
  ExperimentRunner.move_process_overhead_s r
    == ExperimentRunner.move_process_overhead_s r' ->
  (ExperimentRunner.total_steps r = ExperimentRunner.total_steps r' ->
   (0 < ExperimentRunner.total_steps r)%Z ->
   ExperimentRunner.cure_time_s r <= ExperimentRunner.cure_time_s r' ->
   ExperimentRunner.estimate_duration r
     <= ExperimentRunner.estimate_duration r')
  /\ (ExperimentRunner.cure_time_s r == ExperimentRunner.cure_time_s r' ->
      0 <= ExperimentRunner.cure_time_s r
           + ExperimentRunner.move_process_overhead_s r ->
      (0 < ExperimentRunner.total_steps r
       <= ExperimentRunner.total_steps r')%Z ->
      ExperimentRunner.estimate_duration r
        <= ExperimentRunner.estimate_duration r')
  /\ ((ExperimentRunner.total_steps r <= 0)%Z ->
      ExperimentRunner.estimate_duration r == 0).
Proof.
  intros Hu Hm. unfold ExperimentRunner.estimate_duration.
  split; [|split].
  - intros Hn Hpos Hc. rewrite <- Hn.
    destruct (Z.leb_spec (ExperimentRunner.total_steps r) 0); [lia|].
    assert (Hq : 0 < inject_Z (ExperimentRunner.total_steps r))
      by (change 0 with (inject_Z 0); rewrite <- Zlt_Qlt; lia).
    rewrite <- Hu, <- Hm.
    apply Qplus_le_l, Qplus_le_l.
    apply Qmult_le_l; [exact Hq | lra].
  - intros Hc Hsum [Hpos Hle].
    destruct (Z.leb_spec (ExperimentRunner.total_steps r) 0); [lia|].
    destruct (Z.leb_spec (ExperimentRunner.total_steps r') 0); [lia|].
    assert (Hq : inject_Z (ExperimentRunner.total_steps r)
                 <= inject_Z (ExperimentRunner.total_steps r'))
      by (now rewrite <- Zle_Qle).
    rewrite <- Hu, <- Hm, <- Hc.
    apply Qplus_le_l, Qplus_le_l.
    apply Qmult_le_compat_r; assumption.
  - intro Hz.
    destruct (Z.leb_spec (ExperimentRunner.total_steps r) 0);
      [reflexivity | lia].
Qed.

Lemma estimate_duration_monotone_witness :
  ExperimentRunner.estimate_duration three_steps_no_overhead
  <= ExperimentRunner.estimate_duration
       (ExperimentRunner.with_coordinates three_steps_no_overhead
          (Some (ExperimentRunner.Array2
                   [[0; 0]; [50; 0]; [50; 50]; [0; 50]] 2)) 4).
Proof.
  apply (proj1 (proj2 (estimate_duration_monotone three_steps_no_overhead
           (ExperimentRunner.with_coordinates three_steps_no_overhead
              (Some (ExperimentRunner.Array2
                       [[0; 0]; [50; 0]; [50; 50]; [0; 50]] 2)) 4)
           ltac:(reflexivity) ltac:(reflexivity)))).
  - reflexivity.
  - discriminate.
  - cbn. lia.
Defined.

(** ** ExperimentRunner: connecting, and the order of the steps *)

Section RunnerCallsFacts.

Import ExperimentRunner.

Variable env : Env.

Lemma bind_inv {A B} (c : M A) (k : A -> M B) (w w' : World)
    (r : result B) :
  bind c k w = (w', r) ->
  (exists w1 a, c w = (w1, Returned a) /\ k a w1 = (w', r))
  \/ (exists e, c w = (w', Raised e) /\ r = Raised e).
Proof.
  unfold bind. destruct (c w) as [w1 [a|e]]; intro H.
  - left. now exists w1, a.
  - right. injection H as <- <-. now exists e.
Qed.

Lemma call_inv {A} (ev : result A -> Event) (ticks : nat)
    (method : t -> nat -> t * result A) (w w' : World) (res : result A) :
  call ev ticks method w = (w', res) ->
  method (self w) (tick w) = (self w', res)
  /\ tick w' = (tick w + ticks)%nat
  /\ log w' = log w ++ [ev res].
Proof.
  unfold call. destruct (method (self w) (tick w)) as [r res'].
  intro H. injection H as <- <-. now repeat split.
Qed.

Lemma uv_connect_false (u u' : UVcontroller.t) (opening : outcome) :
  UVcontroller.connect u opening = (u', Returned false) ->
  UVcontroller.is_connected u' = false.
Proof.
  unfold UVcontroller.connect.
  destruct (UVcontroller.serial_open u); [discriminate|].
  destruct opening as [|e]; [discriminate|].
  destruct (is_Exception e); [|discriminate].
  now intro H; injection H as <-.
Qed.

Lemma motion_connect_false (m m' : MotionSystem.t)
    (io : MotionSystem.connecting) :
  MotionSystem.connect m io = (m', Returned false) ->
  MotionSystem.is_connected m' = false.
Proof.
  intro H. apply is_connected_needs_flag.
  now destruct (connect_false_clears m m' io H) as (_ & _ & Hf).
Qed.

(** [motion_disconnect] and [uv_disconnect], when they return. *)
Lemma motion_disconnect_inv (w w' : World) (r : result unit) :
  motion_disconnect env w = (w', r) ->
  MotionSystem.is_connected (motion_system (self w')) = false
  /\ uv_controller (self w') = uv_controller (self w).
Proof.
  unfold motion_disconnect. intro H. apply call_inv in H.
  destruct H as (H & _ & _).
  pose proof (disconnect_not_connected (motion_system (self w))
                {| MotionSystem.close_x := dev env (tick w);
                   MotionSystem.close_y := dev env (tick w + 1) |}) as Hd.
  destruct (MotionSystem.disconnect _ _) as [m res].
  injection H as <- _. now split.
Qed.

Lemma uv_disconnect_inv (w w' : World) (r : result unit) :
  uv_disconnect env w = (w', r) ->
  UVcontroller.is_connected (uv_controller (self w')) = false.
Proof.
  unfold uv_disconnect. intro H. apply call_inv in H.
  destruct H as (H & _ & _).
  pose proof (uv_disconnect_not_connected (uv_controller (self w))
                (dev env (tick w))) as Hd.
  destruct (UVcontroller.disconnect _ _) as [u res].
  injection H as <- _. exact Hd.
Qed.

(** X10.  [_connect_hardware] is all or nothing.  When it returns [True]
    both the motion system and the UV controller are connected.  When it
    returns [False] the motion system is not connected, even if only the
    UV controller failed, and a UV controller that was not connected
    before is not connected after. *)
Theorem connect_hardware_all_or_nothing (w w' : World) (ok : bool) :
  _connect_hardware env w = (w', Returned ok) ->
  (ok = true ->
   MotionSystem.is_connected (motion_system (self w')) = true
   /\ UVcontroller.is_connected (uv_controller (self w')) = true)
  /\ (ok = false ->
      MotionSystem.is_connected (motion_system (self w')) = false
      /\ (UVcontroller.is_connected (uv_controller (self w)) = false ->
          UVcontroller.is_connected (uv_controller (self w')) = false)).
Proof.
  unfold _connect_hardware. intro H.
  apply bind_inv in H. destruct H as [(w1 & motion_ok & Hm & H)|(e & _ & H)];
    [|discriminate].
  unfold motion_connect in Hm. apply call_inv in Hm.
  destruct Hm as (Hm & _ & _).
  destruct (MotionSystem.connect _ _) as [m1 rm] eqn:Em.
  injection Hm as Hs1 ->.
  destruct motion_ok; cbn [negb] in H.
  - (* the stages are connected *)
    apply bind_inv in H.
    destruct H as [(w2 & uv_ok & Hu & H)|(e & _ & H)]; [|discriminate].
    unfold uv_connect in Hu. apply call_inv in Hu.
    destruct Hu as (Hu & _ & _).
    destruct (UVcontroller.connect _ _) as [u2 ru] eqn:Eu.
    injection Hu as Hs2 ->.
    destruct uv_ok; cbn [negb] in H.
    + destruct (negb (MotionSystem.is_connected (motion_system (self w2)))
                || negb (UVcontroller.is_connected (uv_controller (self w2))))
        eqn:Echeck.
      * apply bind_inv in H.
        destruct H as [(w3 & [] & Hud & H)|(e & _ & H)]; [|discriminate].
        apply bind_inv in H.
        destruct H as [(w4 & [] & Hmd & H)|(e & _ & H)]; [|discriminate].
        injection H as <- <-.
        apply uv_disconnect_inv in Hud.
        apply motion_disconnect_inv in Hmd. destruct Hmd as [Hmd Hsame].
        split; [discriminate|]. intros _. split; [exact Hmd|].
        intros _. now rewrite Hsame.
      * injection H as <- <-.
        apply orb_false_elim in Echeck. destruct Echeck as [E1 E2].
        apply negb_false_iff in E1, E2.
        split; [now intros _ | discriminate].
    + apply bind_inv in H.
      destruct H as [(w3 & [] & Hmd & H)|(e & _ & H)]; [|discriminate].
      injection H as <- <-.
      apply motion_disconnect_inv in Hmd. destruct Hmd as [Hmd Hsame].
      split; [discriminate|]. intros _. split; [exact Hmd|].
      intros _. rewrite Hsame, <- Hs2. cbn.
      now apply (uv_connect_false _ _ _ Eu).
  - (* the stages are not *)
    injection H as <- <-.
    split; [discriminate|]. intros _. rewrite <- Hs1. cbn.
    split; [now apply (motion_connect_false _ _ _ Em) | auto].
Qed.

End RunnerCallsFacts.

Lemma connect_hardware_all_or_nothing_witness :
  (true = true ->
   MotionSystem.is_connected
     (ExperimentRunner.motion_system
        (ExperimentRunner.self
           (fst (ExperimentRunner._connect_hardware two_rows at_start))))
   = true
   /\ UVcontroller.is_connected
        (ExperimentRunner.uv_controller
           (ExperimentRunner.self
              (fst (ExperimentRunner._connect_hardware two_rows at_start))))
      = true)
  /\ (true = false ->
      MotionSystem.is_connected
        (ExperimentRunner.motion_system
           (ExperimentRunner.self
              (fst (ExperimentRunner._connect_hardware two_rows at_start))))
      = false
      /\ (UVcontroller.is_connected
            (ExperimentRunner.uv_controller (ExperimentRunner.self at_start))
          = false ->
          UVcontroller.is_connected
            (ExperimentRunner.uv_controller
               (ExperimentRunner.self
                  (fst (ExperimentRunner._connect_hardware two_rows
                          at_start))))
          = false)).
Proof.
  apply (connect_hardware_all_or_nothing two_rows at_start
           (fst (ExperimentRunner._connect_hardware two_rows at_start)) true).
  reflexivity.
Defined.

Section StepsFacts.

Import ExperimentRunner.

Variable env : Env.

(** One turn of the loop. *)
Lemma steps_cons (row : list Q) (rest : list (list Q)) (w : World) :
  let x := nth 0 row 0 in
  let y := nth 1 row 0 in
  let moved :=
    MotionSystem.move_to_um (motion_system (self w)) x y (dev env (tick w)) in
  let w1 := {| self := self w; tick := tick w + 1;
               log := log w ++ [MoveTo x y moved] |} in
  let waited :=
    match dev env (tick w + 1) with
    | Done => Returned tt
    | Throws e => Raised e
    end in
  let w2 := {| self := self w; tick := tick w + 1 + 1;
               log := (log w ++ [MoveTo x y moved])
                      ++ [Cure (cure_time_s (self w)) waited] |} in
  steps env (row :: rest) w
  = match moved with
    | Returned true =>
        match waited with
        | Returned _ => steps env rest w2
        | Raised e => (w2, Raised e)
        end
    | Returned false => (w1, Raised RuntimeError)
    | Raised e => (w1, Raised e)
    end.
Proof.
  cbv zeta. cbn [steps]. unfold bind, move_to_um, cure, call, require.
  destruct (MotionSystem.move_to_um _ _ _ _) as [[|]|e]; cbn;
    reflexivity.
Qed.

Lemma steps_log (rows : list (list Q)) (w : World) :
  exists j stop,
    log (fst (steps env rows w))
    = log w ++ flat_map (visit (cure_time_s (self w))) (firstn j rows)
      ++ stop
    /\ match snd (steps env rows w) with
       | Returned _ => j = length rows /\ stop = []
       | Raised e =>
           exists row,
             nth_error rows j = Some row
             /\ failed_visit (cure_time_s (self w)) row stop e
       end.
Proof.
  revert w. induction rows as [|row rest IH]; intro w.
  - exists 0%nat, []. cbn. now rewrite app_nil_r.
  - rewrite steps_cons. cbv zeta.
    destruct (MotionSystem.move_to_um _ _ _ _) as [[|]|e].
    + destruct (dev env (tick w + 1)) as [|e].
      * match goal with
        | |- context [steps env rest ?w2] =>
            destruct (IH w2) as (j & stop & El & Hr)
        end.
        cbn [self log] in El, Hr.
        exists (S j), stop. split.
        -- rewrite El. cbn [firstn flat_map visit app].
           now rewrite <- !app_assoc.
        -- destruct (snd (steps env rest _)) as [[]|e].
           ++ destruct Hr as [-> ->]. now split.
           ++ exact Hr.
      * exists 0%nat. eexists. cbn [fst snd log firstn flat_map app].
        split; [now rewrite <- app_assoc|].
        exists row. split; [reflexivity|]. right. right. reflexivity.
    + exists 0%nat. eexists. cbn [fst snd log firstn flat_map app].
      split; [reflexivity|].
      exists row. split; [reflexivity|]. left. now split.
    + exists 0%nat. eexists. cbn [fst snd log firstn flat_map app].
      split; [reflexivity|].
      exists row. split; [reflexivity|]. right. left. reflexivity.
Qed.

End StepsFacts.

(** X11.  The loop of [run] takes the rows in the order of the file: it
    logs, for each row, the move to its first two numbers and then the
    cure wait of [cure_time_s] seconds.  It returns only after the last
    row; otherwise it stops at the first row whose move returns [False]
    (a RuntimeError) or whose move or cure wait is left by an exception,
    and nothing of the rows after that one is attempted. *)
Theorem steps_follow_the_file
    (env : ExperimentRunner.Env) (rows : list (list Q))
    (w : ExperimentRunner.World) :
  exists j stop,
    ExperimentRunner.log (fst (ExperimentRunner.steps env rows w))
    = ExperimentRunner.log w
      ++ flat_map
           (visit (ExperimentRunner.cure_time_s (ExperimentRunner.self w)))
           (firstn j rows)
      ++ stop
    /\ match snd (ExperimentRunner.steps env rows w) with
       | Returned _ => j = length rows /\ stop = []
       | Raised e =>
           exists row,
             nth_error rows j = Some row
             /\ failed_visit
                  (ExperimentRunner.cure_time_s (ExperimentRunner.self w))
                  row stop e
       end.
Proof. apply steps_log. Qed.

(** ** ExperimentRunner: the log of a successful run *)

Section SuccessfulRunFacts.

Import ExperimentRunner.

Variable env : Env.

Lemma keeps_ret {A X} (f : t -> X) (a : A) : keeps f (ret a).
Proof. now intro w. Qed.

Lemma keeps_call {A X} (f : t -> X) (ev : result A -> Event) (ticks : nat)
    (method : t -> nat -> t * result A) :
  (forall r k, f (fst (method r k)) = f r) -> keeps f (call ev ticks method).
Proof.
  intros H w. unfold call. specialize (H (self w) (tick w)).
  now destruct (method (self w) (tick w)).
Qed.

Lemma keeps_bind {A B X} (f : t -> X) (c : M A) (k : A -> M B) :
  keeps f c -> (forall a, keeps f (k a)) -> keeps f (bind c k).
Proof.
  intros Hc Hk w. unfold bind. specialize (Hc w).
  destruct (c w) as [w1 [a|e]]; simpl in Hc.
  - now rewrite Hk.
  - exact Hc.
Qed.

Lemma keeps_motion_connect {X} (f : t -> X) :
  (forall r m, f (with_motion r m) = f r) -> keeps f (motion_connect env).
Proof.
  intro H. apply keeps_call. intros r k.
  destruct (MotionSystem.connect _ _) as [m res]. apply H.
Qed.

Lemma keeps_motion_disconnect {X} (f : t -> X) :
  (forall r m, f (with_motion r m) = f r) -> keeps f (motion_disconnect env).
Proof.
  intro H. apply keeps_call. intros r k.
  destruct (MotionSystem.disconnect _ _) as [m res]. apply H.
Qed.

Lemma keeps_uv_connect {X} (f : t -> X) :
  (forall r u, f (with_uv r u) = f r) -> keeps f (uv_connect env).
Proof.
  intro H. apply keeps_call. intros r k.
  destruct (UVcontroller.connect _ _) as [u res]. apply H.
Qed.

Lemma keeps_uv_disconnect {X} (f : t -> X) :
  (forall r u, f (with_uv r u) = f r) -> keeps f (uv_disconnect env).
Proof.
  intro H. apply keeps_call. intros r k.
  destruct (UVcontroller.disconnect _ _) as [u res]. apply H.
Qed.

(** Connecting replaces the two controllers of the runner and nothing
    else. *)
Lemma keeps_connect_hardware {X} (f : t -> X) :
  (forall r m, f (with_motion r m) = f r) ->
  (forall r u, f (with_uv r u) = f r) ->
  keeps f (_connect_hardware env).
Proof.
  intros Hm Hu. unfold _connect_hardware.
  apply keeps_bind; [now apply keeps_motion_connect|]. intros [|]; cbn [negb].
  - apply keeps_bind; [now apply keeps_uv_connect|]. intros [|]; cbn [negb].
    + intro w. destruct (_ || _).
      * apply keeps_bind; [now apply keeps_uv_disconnect|]. intros _.
        apply keeps_bind; [now apply keeps_motion_disconnect|]. intros _.
        apply keeps_ret.
      * reflexivity.
    + apply keeps_bind; [now apply keeps_motion_disconnect|]. intros _.
      apply keeps_ret.
  - apply keeps_ret.
Qed.

Lemma setup_events_connect_hardware :
  emits setup_event (_connect_hardware env).
Proof.
  unfold _connect_hardware.
  apply emits_bind; [now apply emits_call|]. intros [|]; cbn [negb].
  - apply emits_bind; [now apply emits_call|]. intros [|]; cbn [negb].
    + apply emits_choice.
      * apply emits_bind; [now apply emits_call|]. intros _.
        apply emits_bind; [now apply emits_call|]. intros _.
        apply emits_ret.
      * apply emits_ret.
    + apply emits_bind; [now apply emits_call|]. intros _. apply emits_ret.
  - apply emits_ret.
Qed.

Lemma load_keeps_cure_time (r : t) (f : input_file) :
  cure_time_s (fst (load_coordinates r f)) = cure_time_s r.
Proof.
  unfold load_coordinates, load_failed.
  destruct f as [|e|content]; [reflexivity| |].
  - now destruct (is_Exception e).
  - destruct (loadtxt content) as [a|e].
    + destruct (reshape_single_row a) as [v|v|rows columns];
        try reflexivity.
      destruct (columns <? 2)%nat; [reflexivity|].
      now destruct (Z.of_nat (length rows) =? 0)%Z.
    + now destruct (is_Exception e).
Qed.

Lemma require_inv (ok : bool) (w w' : World) (u : unit) :
  require ok w = (w', Returned u) -> ok = true /\ w' = w.
Proof.
  destruct ok; cbn; intro H; [|discriminate].
  now injection H as <-.
Qed.

(** The [try] block of [run] up to the UV-on command, when nothing in it
    fails. *)
Lemma setup_returned (start_at_origin : bool) (w w0 : World) (u : unit) :
  setup env start_at_origin w = (w0, Returned u) ->
  exists r1 pre,
    load_coordinates (self w) (input env) = (r1, Returned true)
    /\ coordinates (self w0) = coordinates r1
    /\ cure_time_s (self w0) = cure_time_s (self w)
    /\ log w0 = log w ++ pre
    /\ Forall setup_event pre.
Proof.
  unfold setup. intro H.
  apply bind_inv in H. destruct H as [(w1 & ok & Hl & H)|(e & _ & H)];
    [|discriminate].
  unfold do_load_coordinates in Hl.
  apply call_inv in Hl. destruct Hl as (Hl & _ & El).
  apply bind_inv in H. destruct H as [(w1' & [] & Hr & H)|(e & _ & H)];
    [|discriminate].
  apply require_inv in Hr. destruct Hr as [-> ->].
  apply bind_inv in H. destruct H as [(w2 & ok & Hc & H)|(e & _ & H)];
    [|discriminate].
  apply bind_inv in H. destruct H as [(w2' & [] & Hr & H)|(e & _ & H)];
    [|discriminate].
  apply require_inv in Hr. destruct Hr as [-> ->].
  pose proof (keeps_connect_hardware coordinates
                (fun _ _ => eq_refl) (fun _ _ => eq_refl) w1) as Kc.
  pose proof (keeps_connect_hardware cure_time_s
                (fun _ _ => eq_refl) (fun _ _ => eq_refl) w1) as Kt.
  destruct (setup_events_connect_hardware w1) as (evs & Ee & Fe).
  rewrite Hc in Kc, Kt, Ee. cbn [fst] in Kc, Kt, Ee.
  pose proof (load_keeps_cure_time (self w) (input env)) as Lt.
  rewrite Hl in Lt. cbn [fst] in Lt.
  assert (Hw2 : coordinates (self w2) = coordinates (self w1)
                /\ cure_time_s (self w2) = cure_time_s (self w)
                /\ log w2 = log w ++ LoadCoordinates (Returned true) :: evs
                /\ Forall setup_event
                     (LoadCoordinates (Returned true) :: evs)).
  { repeat split; auto.
    - now rewrite Kt.
    - now rewrite Ee, El, <- app_assoc.
    - now constructor. }
  destruct Hw2 as (C2 & T2 & L2 & F2).
  exists (self w1). destruct start_at_origin.
  - apply bind_inv in H. destruct H as [(w3 & ok & Hm & H)|(e & _ & H)];
      [|discriminate].
    apply require_inv in H. destruct H as [-> ->].
    unfold move_to_um in Hm.
    apply call_inv in Hm. destruct Hm as (Hm & _ & Em).
    injection Hm as Hs.
    exists ((LoadCoordinates (Returned true) :: evs)
            ++ [MoveTo 0 0 (Returned true)]).
    rewrite <- Hs. repeat split; auto.
    + now rewrite Em, L2, app_assoc.
    + apply Forall_app. split; [exact F2 | now repeat constructor].
  - injection H as <-.
    exists (LoadCoordinates (Returned true) :: evs). now repeat split.
Qed.


End SuccessfulRunFacts.


(** ** ExperimentWorker: how the stepping loop ends *)

Section SteppingEndFacts.

Import ExperimentWorker.

Variable env : Env.
Variable runner : ExperimentRunner.t.
Variable estimated_total_seconds : Q.
Variable run_start_time : Q.

(** X13.  A stop request is honoured at the top of the next step.  If
    the steps before step k + j went through and the abort flag is set
    when step k + j begins, the loop is left with InterruptedError, and
    the only progress events emitted are those of the steps before it:
    none is emitted for that row or any later one, whatever their moves
    would have done. *)
Theorem stepping_stops_when_abort_requested (rows : list (list Q)) :
  forall k j row,
    nth_error rows j = Some row ->
    (forall j' row',
       (j' < j)%nat -> nth_error rows j' = Some row' ->
       step_goes_through env runner (k + j') row') ->
    abort_requested env (k + j) = true ->
    stepping env runner estimated_total_seconds run_start_time k rows
    = (progress_events env runner estimated_total_seconds run_start_time k
         (firstn j rows),
       Raised InterruptedError).
Proof.
  induction rows as [|row0 rows IH]; intros k j row Hrow Hbefore Habort.
  - destruct j; discriminate.
  - destruct j as [|j].
    + cbn [stepping firstn progress_events].
      rewrite Nat.add_0_r in Habort. now rewrite Habort.
    + destruct (Hbefore 0%nat row0 ltac:(lia) eq_refl) as [Ha Hm].
      rewrite Nat.add_0_r in Ha, Hm.
      cbn [stepping firstn progress_events]. rewrite Ha, Hm.
      rewrite (IH (S k) j row Hrow); [reflexivity| |].
      * intros j' row' Hj' Hrow'.
        replace (S k + j')%nat with (k + S j')%nat by lia.
        apply Hbefore; [lia | exact Hrow'].
      * now replace (S k + j)%nat with (k + S j)%nat by lia.
Qed.

Lemma stepping_through (rows : list (list Q)) :
  forall k,
    (forall j row,
       nth_error rows j = Some row ->
       step_goes_through env runner (k + j) row) ->
    stepping env runner estimated_total_seconds run_start_time k rows
    = (progress_events env runner estimated_total_seconds run_start_time k
         rows,
       Returned tt).
Proof.
  induction rows as [|row0 rows IH]; intros k Hall; [reflexivity|].
  destruct (Hall 0%nat row0 eq_refl) as [Ha Hm].
  rewrite Nat.add_0_r in Ha, Hm.
  cbn [stepping progress_events]. rewrite Ha, Hm, IH; [reflexivity|].
  intros j row Hrow. replace (S k + j)%nat with (k + S j)%nat by lia.
  now apply Hall.
Qed.

Lemma stepping_returned (rows : list (list Q)) :
  forall k,
    snd (stepping env runner estimated_total_seconds run_start_time k rows)
    = Returned tt ->
    forall j row,
      nth_error rows j = Some row ->
      step_goes_through env runner (k + j) row.
Proof.
  induction rows as [|row0 rows IH]; intros k Hr j row Hrow.
  - destruct j; discriminate.
  - cbn [stepping] in Hr.
    destruct (abort_requested env k) eqn:Ha; [discriminate|].
    destruct (MotionSystem.move_to_um _ _ _ _) as [[|]|e] eqn:Hm;
      try discriminate.
    destruct j as [|j].
    + injection Hrow as <-. rewrite Nat.add_0_r. now split.
    + replace (k + S j)%nat with (S k + j)%nat by lia.
      apply IH; [|exact Hrow].
      now destruct (stepping env runner estimated_total_seconds
                      run_start_time (S k) rows).
Qed.

(** X14.  The stepping loop of the worker runs to its end exactly when
    every step goes through: at the top of no step the abort flag is set,
    and every move returns [True].  It has then emitted one progress
    event per row, in the order of the rows. *)
Theorem stepping_completes_iff_every_step_goes_through
    (k : nat) (rows : list (list Q)) :
  (snd (stepping env runner estimated_total_seconds run_start_time k rows)
   = Returned tt
   <-> forall j row,
         nth_error rows j = Some row ->
         step_goes_through env runner (k + j) row)
  /\ (snd (stepping env runner estimated_total_seconds run_start_time k
             rows)
      = Returned tt ->
      fst (stepping env runner estimated_total_seconds run_start_time k rows)
      = progress_events env runner estimated_total_seconds run_start_time k
          rows).
Proof.
  split; [split|].
  - apply stepping_returned.
  - intro H. now rewrite stepping_through.
  - intro H. rewrite stepping_through; [reflexivity|].
    now apply stepping_returned.
Qed.

End SteppingEndFacts.

(** Three rows, the stop button pressed during step 1: one event. *)
Lemma stepping_stops_when_abort_requested_witness :
  ExperimentWorker.stepping stopped_during_step_1 three_steps_connected 6 0
    1 [[0; 0]; [50; 0]; [50; 50]]
  = (progress_events stopped_during_step_1 three_steps_connected 6 0 1
       (firstn 1 [[0; 0]; [50; 0]; [50; 50]]),
     Raised InterruptedError).
Proof.
  apply (stepping_stops_when_abort_requested stopped_during_step_1
           three_steps_connected 6 0 [[0; 0]; [50; 0]; [50; 50]] 1 1 [50; 0]).
  - reflexivity.
  - intros [|j'] row' Hj' Hrow'; [|lia].
    injection Hrow' as <-. split; reflexivity.
  - reflexivity.
Defined.

(** ** ImageTSPOptimizer: the pixels of the global path *)

Section PixelsFacts.

Import ImageTSPOptimizer.

Local Open Scope Z_scope.

Lemma where_in_row_In (label_id : nat) (r r' c' : Z) (row : list nat) :
  forall c,
    In (r', c') (where_in_row label_id r c row)
    <-> r' = r /\ c <= c'
        /\ nth_error row (Z.to_nat (c' - c)) = Some label_id.
Proof.
  induction row as [|l rest IH]; intro c; cbn [where_in_row].
  - split; [intros [] | intros (_ & _ & H)].
    now destruct (Z.to_nat (c' - c)).
  - rewrite in_app_iff, IH. split.
    + intros [H | (-> & Hc & Hn)].
      * destruct (Nat.eqb_spec l label_id) as [->|_]; [|destruct H].
        destruct H as [H|[]]. injection H as <- <-.
        rewrite Z.sub_diag. repeat split; lia.
      * repeat split; [lia|].
        replace (Z.to_nat (c' - c)) with (S (Z.to_nat (c' - (c + 1))))
          by lia.
        exact Hn.
    + intros (-> & Hc & Hn).
      destruct (Z.eq_dec c' c) as [->|Hne].
      * left. rewrite Z.sub_diag in Hn. cbn in Hn. injection Hn as ->.
        rewrite Nat.eqb_refl. now left.
      * right. repeat split; [lia|].
        replace (Z.to_nat (c' - c)) with (S (Z.to_nat (c' - (c + 1))))
          in Hn by lia.
        exact Hn.
Qed.

Lemma where_in_row_NoDup (label_id : nat) (r : Z) (row : list nat) :
  forall c, NoDup (where_in_row label_id r c row).
Proof.
  induction row as [|l rest IH]; intro c; cbn [where_in_row].
  - constructor.
  - apply NoDup_app; [| apply IH |].
    + destruct (l =? label_id)%nat; repeat constructor. intros [].
    + intros [r' c'] H Hin. apply where_in_row_In in Hin.
      destruct (l =? label_id)%nat; [|destruct H].
      destruct H as [H|[]]. injection H as <- <-. lia.
Qed.

Lemma where_from_In (label_id : nat) (r' c' : Z) (rows : image) :
  forall r,
    In (r', c') (where_from label_id r rows)
    <-> r <= r' /\ 0 <= c'
        /\ exists row,
             nth_error rows (Z.to_nat (r' - r)) = Some row
             /\ nth_error row (Z.to_nat c') = Some label_id.
Proof.
  induction rows as [|row0 rest IH]; intro r; cbn [where_from].
  - split; [intros [] | intros (_ & _ & row & H & _)].
    now destruct (Z.to_nat (r' - r)).
  - rewrite in_app_iff, IH, where_in_row_In. rewrite Z.sub_0_r. split.
    + intros [(-> & Hc & Hn) | (Hr & Hc & row & Hrow & Hn)].
      * repeat split; [lia | exact Hc |]. exists row0.
        rewrite Z.sub_diag. now split.
      * repeat split; [lia | exact Hc |]. exists row.
        replace (Z.to_nat (r' - r)) with (S (Z.to_nat (r' - (r + 1))))
          by lia.
        now split.
    + intros (Hr & Hc & row & Hrow & Hn).
      destruct (Z.eq_dec r' r) as [->|Hne].
      * left. rewrite Z.sub_diag in Hrow. cbn in Hrow.
        injection Hrow as ->. now repeat split.
      * right. repeat split; [lia | exact Hc |]. exists row.
        replace (Z.to_nat (r' - r)) with (S (Z.to_nat (r' - (r + 1))))
          in Hrow by lia.
        now split.
Qed.

Lemma where_from_NoDup (label_id : nat) (rows : image) :
  forall r, NoDup (where_from label_id r rows).
Proof.
  induction rows as [|row0 rest IH]; intro r; cbn [where_from].
  - constructor.
  - apply NoDup_app; [apply where_in_row_NoDup | apply IH |].
    intros [r' c'] H Hin.
    apply where_in_row_In in H. apply where_from_In in Hin. lia.
Qed.

(** [np.where(self.labels == label_id)] lists the pixels that carry the
    label, each once. *)
Lemma shape_coords_In (labels : image) (label_id : nat) (p : point) :
  In p (shape_coords labels label_id) <-> label_at labels p = Some label_id.
Proof.
  destruct p as [r c]. unfold shape_coords, label_at. cbn [fst snd].
  rewrite where_from_In, Z.sub_0_r. split.
  - intros (Hr & Hc & row & Hrow & Hn).
    destruct (Z.ltb_spec r 0); [lia|].
    destruct (Z.ltb_spec c 0); [lia|].
    cbn [orb]. now rewrite Hrow.
  - destruct (Z.ltb_spec r 0); [discriminate|].
    destruct (Z.ltb_spec c 0); [discriminate|].
    cbn [orb].
    destruct (nth_error labels (Z.to_nat r)) as [row|] eqn:Hrow;
      [|discriminate].
    intro Hn. repeat split; try lia. now exists row.
Qed.

Lemma shape_coords_NoDup (labels : image) (label_id : nat) :
  NoDup (shape_coords labels label_id).
Proof. apply where_from_NoDup. Qed.

Variable solve : list point -> option (list point).
Variable labels : image.

Hypothesis solve_permutes : permuting solve.

Lemma solved_order_permutation (label_id : nat) :
  solved_order solve labels label_id = []
  \/ Permutation (shape_coords labels label_id)
       (solved_order solve labels label_id).
Proof.
  unfold solved_order.
  destruct (shape_coords labels label_id) as [|p shape]; [now left|].
  destruct (solve (p :: shape)) as [path|] eqn:E; [|now left].
  right. now apply solve_permutes.
Qed.

Lemma solved_order_label (label_id : nat) (p : point) :
  In p (solved_order solve labels label_id) ->
  label_at labels p = Some label_id.
Proof.
  intro H. apply shape_coords_In.
  destruct (solved_order_permutation label_id) as [E|P].
  - rewrite E in H. destruct H.
  - apply Permutation_sym in P. exact (Permutation_in _ P H).
Qed.

Lemma solved_order_NoDup (label_id : nat) :
  NoDup (solved_order solve labels label_id).
Proof.
  destruct (solved_order_permutation label_id) as [E|P].
  - rewrite E. constructor.
  - exact (Permutation_NoDup P (shape_coords_NoDup labels label_id)).
Qed.

Lemma solved_orders_NoDup (label_ids : list nat) :
  NoDup label_ids ->
  NoDup (flat_map (solved_order solve labels) label_ids).
Proof.
  induction 1 as [|label_id rest Hnotin _ IH]; cbn [flat_map].
  - constructor.
  - apply NoDup_app; [apply solved_order_NoDup | exact IH |].
    intros p Hp Hin. apply in_flat_map in Hin.
    destruct Hin as (other & Hother & Hq).
    apply solved_order_label in Hp, Hq.
    rewrite Hp in Hq. injection Hq as ->. contradiction.
Qed.

Lemma process_shapes_flat_map (num_labels : nat) :
  process_shapes solve (Some labels) num_labels
  = flat_map (solved_order solve labels) (seq 1 (num_labels - 1)).
Proof.
  destruct num_labels as [|m]; [reflexivity|].
  rewrite process_shapes_all. now rewrite Nat.sub_succ, Nat.sub_0_r.
Qed.

(** X15.  With a solver that returns the points of a shape in some
    order whenever it returns a path (what [_solve_tsp_for_coords] does;
    this is the hypothesis [solve_permutes] of the section), the global
    path of [process_shapes] holds no pixel twice; every
    pixel of it lies inside the image and carries one of the labels
    1 .. num_labels - 1, never the background label 0; and every pixel
    of a shape for which the solver returned a path is in it. *)
Theorem global_path_visits_foreground_pixels_once (num_labels : nat) :
  NoDup (process_shapes solve (Some labels) num_labels)
  /\ (forall p,
        In p (process_shapes solve (Some labels) num_labels) ->
        exists label_id,
          label_at labels p = Some label_id
          /\ (1 <= label_id < num_labels)%nat)
  /\ (forall p label_id path,
        label_at labels p = Some label_id ->
        (1 <= label_id < num_labels)%nat ->
        solve (shape_coords labels label_id) = Some path ->
        In p (process_shapes solve (Some labels) num_labels)).
Proof.
  rewrite process_shapes_flat_map. split; [|split].
  - apply solved_orders_NoDup, seq_NoDup.
  - intros p Hin. apply in_flat_map in Hin.
    destruct Hin as (label_id & Hl & Hp). exists label_id.
    split; [now apply solved_order_label|].
    apply in_seq in Hl. lia.
  - intros p label_id path Hp Hl Hs. apply in_flat_map.
    exists label_id. split; [apply in_seq; lia|].
    apply shape_coords_In in Hp. unfold solved_order.
    destruct (shape_coords labels label_id) as [|q shape] eqn:E;
      [destruct Hp|].
    rewrite Hs. exact (Permutation_in _ (solve_permutes _ _ Hs) Hp).
Qed.

End PixelsFacts.

(** The three shapes of the 2 x 5 image, each visited in reverse. *)
Lemma global_path_visits_foreground_pixels_once_witness :
  NoDup (ImageTSPOptimizer.process_shapes reversing (Some three_shapes) 4)
  /\ (forall p,
        In p (ImageTSPOptimizer.process_shapes reversing (Some three_shapes)
                4) ->
        exists label_id,
          label_at three_shapes p = Some label_id
          /\ (1 <= label_id < 4)%nat)
  /\ (forall p label_id path,
        label_at three_shapes p = Some label_id ->
        (1 <= label_id < 4)%nat ->
        reversing (ImageTSPOptimizer.shape_coords three_shapes label_id)
        = Some path ->
        In p (ImageTSPOptimizer.process_shapes reversing (Some three_shapes)
                4)).
Proof.
  apply (global_path_visits_foreground_pixels_once reversing three_shapes).
  intros coords path H. injection H as <-. apply Permutation_rev.
Defined.

(** ** ImageTSPOptimizer: the generated file is the runner's input *)

Section SavedFileFacts.

Import ImageTSPOptimizer.

Lemma save_success_file (all_paths_pixels : list point) (step_size : Q)
    (io : writing) :
  fst (save_optimized_path all_paths_pixels step_size io) = true ->
  all_paths_pixels <> []
  /\ snd (save_optimized_path all_paths_pixels step_size io)
     = Complete (map (scaled step_size) all_paths_pixels).
Proof.
  unfold save_optimized_path.
  destruct all_paths_pixels as [|p rest]; [discriminate|].
  cbn [truthy negb]. destruct (open_ok io); cbn [negb]; [|discriminate].
  pose proof (write_points_all io step_size (p :: rest) 0) as Hall.
  destruct (write_points io step_size 0 (p :: rest)) as [written ok].
  cbn [fst snd] in *.
  destruct ok; cbn [andb]; [|discriminate].
  destruct (close_ok io); [|discriminate].
  intros _. split; [discriminate|]. now rewrite Hall.
Qed.

Lemma coordinate_lines_numbers (printed : Q -> Q) (file : list (Q * Q)) :
  coordinate_lines printed file
  = map (map ExperimentRunner.Num)
        (map (fun record => [printed (fst record); printed (snd record)])
             file).
Proof. unfold coordinate_lines. now rewrite map_map. Qed.

End SavedFileFacts.

(** X17.  The coordinate file of a successful path generation is always
    accepted by the runner.  When [ImageTSPOptimizer.run] returns [True]
    it has left a complete file (every write and the close went
    through) with one record per point of the global path, at least
    one; [load_coordinates] on that file returns [True], with
    [total_steps] the number of points and row i holding the x and y of
    record i as printed. *)
Theorem generated_file_loads
    (solve : list ImageTSPOptimizer.point
             -> option (list ImageTSPOptimizer.point))
    (step_size : Q) (cv : ImageTSPOptimizer.segmentation)
    (io : ImageTSPOptimizer.writing) (printed : Q -> Q)
    (r : ExperimentRunner.t) :
  fst (ImageTSPOptimizer.run solve step_size cv io) = true ->
  exists labels num_labels file,
    cv = ImageTSPOptimizer.Labelled labels num_labels
    /\ snd (ImageTSPOptimizer.run solve step_size cv io)
       = ImageTSPOptimizer.Complete file
    /\ file
       = map (ImageTSPOptimizer.scaled step_size)
           (ImageTSPOptimizer.process_shapes solve (Some labels) num_labels)
    /\ file <> []
    /\ ExperimentRunner.load_coordinates r
         (ExperimentRunner.Lines (coordinate_lines printed file))
       = (ExperimentRunner.with_coordinates r
            (Some (ExperimentRunner.Array2
                     (map (fun record =>
                             [printed (fst record); printed (snd record)])
                          file)
                     2))
            (Z.of_nat (length file)),
          Returned true).
Proof.
  destruct cv as [| |labels num_labels]; [discriminate|discriminate|].
  cbn [ImageTSPOptimizer.run]. intro H.
  apply save_success_file in H. destruct H as [Hne Hfile].
  exists labels, num_labels. eexists. split; [reflexivity|].
  split; [exact Hfile|]. split; [reflexivity|].
  assert (Hfile_ne :
            map (ImageTSPOptimizer.scaled step_size)
              (ImageTSPOptimizer.process_shapes solve (Some labels)
                 num_labels) <> []).
  { intro E. apply map_eq_nil in E. contradiction. }
  split; [exact Hfile_ne|].
  rewrite coordinate_lines_numbers.
  rewrite load_table with (columns := 2%nat).
  - now rewrite length_map.
  - intro E. apply map_eq_nil in E. contradiction.
  - lia.
  - apply Forall_forall. intros row Hrow. apply in_map_iff in Hrow.
    now destruct Hrow as (record & <- & _).
Qed.

(** The image of three shapes, each visited in reverse, on a file system
    where nothing fails. *)
Lemma generated_file_loads_witness :
  exists labels num_labels file,
    ImageTSPOptimizer.Labelled three_shapes 4
    = ImageTSPOptimizer.Labelled labels num_labels
    /\ snd (ImageTSPOptimizer.run reversing config.PATH_GEN_STEP_SIZE
              (ImageTSPOptimizer.Labelled three_shapes 4) writable)
       = ImageTSPOptimizer.Complete file
    /\ file
       = map (ImageTSPOptimizer.scaled config.PATH_GEN_STEP_SIZE)
           (ImageTSPOptimizer.process_shapes reversing (Some labels)
              num_labels)
    /\ file <> []
    /\ ExperimentRunner.load_coordinates fresh_runner
         (ExperimentRunner.Lines (coordinate_lines (fun v => v) file))
       = (ExperimentRunner.with_coordinates fresh_runner
            (Some (ExperimentRunner.Array2
                     (map (fun record => [fst record; snd record]) file)
                     2))
            (Z.of_nat (length file)),
          Returned true).
Proof.
  apply (generated_file_loads reversing config.PATH_GEN_STEP_SIZE
           (ImageTSPOptimizer.Labelled three_shapes 4) writable
           (fun v => v) fresh_runner).
  reflexivity.
Defined.
